(** * destru-frontend: the structure viewport and the user store

    A shallow embedding of the two source units of the repository:

    - the viewport component (an SFC script): the [ResizeObserver] callback,
      the class [InteractiveCanvas] with its seven DOM listeners, the
      module-level [redraw] and the [watch] on the options;
    - the pinia store [useUserStore] with its single asynchronous action
      [set].

    How the source is read:

    - JavaScript numbers are IEEE 754 binary64 values and are modelled by
      Rocq's primitive floats, so [+], [-], [*], [/], [Math.sqrt] and the
      comparisons are the machine operations of the source, with [NaN], the
      infinities and the signed zeros. [Math.max], [Math.min] and [%] follow
      ECMA-262; [x ** 2] is one multiplication; [Math.hypot], whose accuracy
      the standard leaves open, is a parameter.
    - Objects have identity: an [InteractiveCanvas] or a [StructureRenderer]
      is known by a reference, and the instances live in a store.
    - The platform is explicit: the listener list of the canvas and of its
      owner document, the queue of [requestAnimationFrame] callbacks, and
      the calls made on the WebGL context.
    - The store's action runs against an API given as two functions that
      say how each request settles; a run yields the final state, the
      trace of assignments and requests, and the settlement of the promise.
      For calls that overlap, the same action is read as the event loop
      runs it: a body that stops at each [await] and goes on when the
      awaited promise has settled ([EventLoop]). *)

From Stdlib Require Import ZArith NArith List Bool Lia Ascii String.
From Stdlib Require Import Floats.
From stdpp Require Import base option list gmap.

(** ** JavaScript numbers *)

Module JS.

Local Open Scope float_scope.

(** [Math.PI], the double nearest to pi. *)
Definition PI : float := 0x1.921fb54442d18p+1.

(** [ToBoolean] on a number: [+0], [-0] and [NaN] are falsy. *)
Definition truthy (x : float) : bool := negb (is_nan x || is_zero x).

Definition is_pos_zero (x : float) : bool :=
  match Prim2SF x with S754_zero false => true | _ => false end.

Definition is_neg_zero (x : float) : bool :=
  match Prim2SF x with S754_zero true => true | _ => false end.

(** [Math.max(a, b)] (ECMA-262, 21.3.2.24): [NaN] if an argument is [NaN];
    [+0] is larger than [-0]; otherwise the larger argument, scanning
    from the left. *)
Definition max (a b : float) : float :=
  if is_nan a || is_nan b then nan
  else if is_pos_zero b && is_neg_zero a then b
  else if a <? b then b else a.

(** [Math.min(a, b)] (ECMA-262, 21.3.2.25). *)
Definition min (a b : float) : float :=
  if is_nan a || is_nan b then nan
  else if is_neg_zero b && is_pos_zero a then b
  else if b <? a then b else a.

(** [n % d] (ECMA-262, Number::remainder): the remainder of the division
    truncated towards zero, computed exactly on mantissas brought to the
    smaller exponent [e]; its sign is the sign of the dividend. The
    remainder [r * 2^e] has at most [prec] digits, so it is a double: its
    mantissa is shifted left until it has [prec] digits or the exponent
    reaches [emin]. *)
Definition rem (n d : float) : float :=
  match Prim2SF n, Prim2SF d with
  | S754_nan, _ | _, S754_nan => nan
  | S754_infinity _, _ => nan
  | _, S754_infinity _ => n
  | _, S754_zero _ => nan
  | S754_zero _, _ => n
  | S754_finite sn mn en, S754_finite _ md ed =>
      let e := Z.min en ed in
      let N := (Zpos mn * 2 ^ (en - e))%Z in
      let D := (Zpos md * 2 ^ (ed - e))%Z in
      match Z.rem N D with
      | Zpos r =>
          let sh := Z.min (prec - Zpos (digits2_pos r)) (e - emin) in
          SF2Prim (S754_finite sn (Z.to_pos (Zpos r * 2 ^ sh)) (e - sh))
      | _ => SF2Prim (S754_zero sn)
      end
  end.

(** [x ** 2]: the square, as one rounded multiplication. *)
Definition sq (x : float) : float := x * x.

(** [a <= b] and [a < b] as JavaScript evaluates them: false as soon as
    an operand is [NaN]. *)
Definition le (a b : float) : Prop := (a <=? b) = true.
Definition lt (a b : float) : Prop := (a <? b) = true.
Definition between (lo hi x : float) : Prop := le lo x /\ le x hi.
Definition isNaN (x : float) : Prop := is_nan x = true.

(** The value of a finite double as a multiple of the least positive
    double, [2^emin]; zero for the zeros (and for what is not finite). *)
Definition units (x : float) : Z :=
  match Prim2SF x with
  | S754_finite s m e => cond_Zopp s (Zpos m * 2 ^ (e - emin))
  | _ => 0%Z
  end.

End JS.


(** [Math.hypot] is left open by ECMA-262 (an implementation-approximated
    value), so the embedding takes it from the environment. *)
Class Math := { hypot : float -> float -> float }.

(** The textbook instance, used to run the model on concrete gestures. *)
Definition sqrt_hypot : Math :=
  {| hypot := fun x y => sqrt (x * x + y * y)%float |}.

(** ** DOM events, as far as the handlers read them *)

Module MouseEvent.
Record t := { button : Z; clientX : float; clientY : float }.
End MouseEvent.

Module WheelEvent.
Record t := { deltaY : float }.
End WheelEvent.

Module Touch.
Record t := { clientX : float; clientY : float }.
End Touch.

Module TouchEvent.
Record t := { touches : list Touch.t }.
End TouchEvent.

(** What a handler asks of the platform, in call order. *)
Inductive Effect :=
| PreventDefault
| RequestAnimationFrame.

(** [gl-matrix] calls on the view matrix, kept symbolic and in call order
    (the matrix starts as [mat4.create()], the identity). *)
Inductive Transform :=
| Translate (v : float * float * float)
| Rotate (rad : float) (axis : float * float * float).

Definition mat4 := list Transform.

(** ** class InteractiveCanvas *)

Module InteractiveCanvas.

Local Open Scope float_scope.

Record t := {
  xRot : float;
  yRot : float;
  dragPos : option (float * float);
  pinchStartDist : option float;
  pinchStartViewDist : option float;
  size : float * float * float;
  center : float * float * float;
  viewDist : float;
  maxViewDist : float
}.

Definition set_xRot (v : float) (c : t) : t :=
  {| xRot := v; yRot := yRot c; dragPos := dragPos c;
     pinchStartDist := pinchStartDist c;
     pinchStartViewDist := pinchStartViewDist c;
     size := size c; center := center c;
     viewDist := viewDist c; maxViewDist := maxViewDist c |}.

Definition set_yRot (v : float) (c : t) : t :=
  {| xRot := xRot c; yRot := v; dragPos := dragPos c;
     pinchStartDist := pinchStartDist c;
     pinchStartViewDist := pinchStartViewDist c;
     size := size c; center := center c;
     viewDist := viewDist c; maxViewDist := maxViewDist c |}.

Definition set_dragPos (v : option (float * float)) (c : t) : t :=
  {| xRot := xRot c; yRot := yRot c; dragPos := v;
     pinchStartDist := pinchStartDist c;
     pinchStartViewDist := pinchStartViewDist c;
     size := size c; center := center c;
     viewDist := viewDist c; maxViewDist := maxViewDist c |}.

Definition set_pinchStartDist (v : option float) (c : t) : t :=
  {| xRot := xRot c; yRot := yRot c; dragPos := dragPos c;
     pinchStartDist := v;
     pinchStartViewDist := pinchStartViewDist c;
     size := size c; center := center c;
     viewDist := viewDist c; maxViewDist := maxViewDist c |}.

Definition set_pinchStartViewDist (v : option float) (c : t) : t :=
  {| xRot := xRot c; yRot := yRot c; dragPos := dragPos c;
     pinchStartDist := pinchStartDist c;
     pinchStartViewDist := v;
     size := size c; center := center c;
     viewDist := viewDist c; maxViewDist := maxViewDist c |}.

Definition set_viewDist (v : float) (c : t) : t :=
  {| xRot := xRot c; yRot := yRot c; dragPos := dragPos c;
     pinchStartDist := pinchStartDist c;
     pinchStartViewDist := pinchStartViewDist c;
     size := size c; center := center c;
     viewDist := v; maxViewDist := maxViewDist c |}.

(** The constructor's field initialisers and parameter defaults, as the
    only call site uses them: [new InteractiveCanvas(canvas, onRender, size)]. *)
Definition new (size : float * float * float) : t :=
  let '(s0, s1, s2) := size in
  let viewDist := sqrt (JS.sq s0 + JS.sq s1 + JS.sq s2) in
  {| xRot := 0.5; yRot := 0.5; dragPos := None;
     pinchStartDist := None; pinchStartViewDist := None;
     size := size;
     center := (s0 / 2, s1 / 2, s2 / 2);
     viewDist := viewDist;
     maxViewDist := JS.sq viewDist |}.

Definition handleMouseDown (c : t) (evt : MouseEvent.t) : t * list Effect :=
  if (MouseEvent.button evt =? 0)%Z
  then (set_dragPos (Some (MouseEvent.clientX evt, MouseEvent.clientY evt)) c, [])
  else (c, []).

Definition handleMouseMove (c : t) (evt : MouseEvent.t) : t * list Effect :=
  match dragPos c with
  | Some (x0, y0) =>
      let c := set_yRot (yRot c + (MouseEvent.clientX evt - x0) / 100) c in
      let c := set_xRot (xRot c + (MouseEvent.clientY evt - y0) / 100) c in
      let c := set_dragPos (Some (MouseEvent.clientX evt, MouseEvent.clientY evt)) c in
      (c, [RequestAnimationFrame])
  | None => (c, [])
  end.

Definition handleMouseUp (c : t) : t * list Effect :=
  (set_dragPos None c, []).

Definition handleWheel (c : t) (evt : WheelEvent.t) : t * list Effect :=
  (set_viewDist (viewDist c + WheelEvent.deltaY evt / 100) c,
   [PreventDefault; RequestAnimationFrame]).

(** The guard of the pinch branch of [handleTouchMove]:
    [this.pinchStartDist && this.pinchStartViewDist !== null]. *)
Definition pinchArmed (c : t) : option (float * float) :=
  match pinchStartDist c, pinchStartViewDist c with
  | Some d, Some v => if JS.truthy d then Some (d, v) else None
  | _, _ => None
  end.

Section Handlers.
Context `{Math}.

Definition separation (t1 t2 : Touch.t) : float :=
  hypot (Touch.clientX t2 - Touch.clientX t1)
        (Touch.clientY t2 - Touch.clientY t1).

Definition handleTouchStart (c : t) (evt : TouchEvent.t) : t * list Effect :=
  match TouchEvent.touches evt with
  | [touch] =>
      let c := set_dragPos (Some (Touch.clientX touch, Touch.clientY touch)) c in
      let c := set_pinchStartDist None c in
      (c, [PreventDefault])
  | [t1; t2] =>
      let c := set_pinchStartDist (Some (separation t1 t2)) c in
      let c := set_pinchStartViewDist (Some (viewDist c)) c in
      let c := set_dragPos None c in
      (c, [PreventDefault])
  | _ => (c, [PreventDefault])
  end.

Definition handleTouchMove (c : t) (evt : TouchEvent.t) : t * list Effect :=
  match TouchEvent.touches evt, dragPos c with
  | [touch], Some (x0, y0) =>
      let c := set_yRot (yRot c + (Touch.clientX touch - x0) / 100) c in
      let c := set_xRot (xRot c + (Touch.clientY touch - y0) / 100) c in
      let c := set_dragPos (Some (Touch.clientX touch, Touch.clientY touch)) c in
      (c, [PreventDefault; RequestAnimationFrame])
  | [t1; t2], _ =>
      match pinchArmed c with
      | Some (startDist, startViewDist) =>
          let currentDist := separation t1 t2 in
          let scale := currentDist / startDist in
          (set_viewDist (startViewDist / scale) c,
           [PreventDefault; RequestAnimationFrame])
      | None => (c, [PreventDefault])
      end
  | _, _ => (c, [PreventDefault])
  end.

End Handlers.

Definition handleTouchEnd (c : t) (evt : TouchEvent.t) : t * list Effect :=
  match TouchEvent.touches evt with
  | [] =>
      let c := set_dragPos None c in
      let c := set_pinchStartDist None c in
      (set_pinchStartViewDist None c, [])
  | [touch] =>
      let c := set_dragPos (Some (Touch.clientX touch, Touch.clientY touch)) c in
      let c := set_pinchStartDist None c in
      (set_pinchStartViewDist None c, [])
  | _ => (c, [])
  end.

(** [renderImmediately]: the three clamps, then the view matrix handed to
    [onRender]. *)
Definition renderImmediately (c : t) : t * mat4 :=
  let c := set_yRot (JS.rem (yRot c) (JS.PI * 2)) c in
  let c := set_xRot (JS.max (- JS.PI / 2) (JS.min (JS.PI / 2) (xRot c))) c in
  let c := set_viewDist (JS.min (JS.max (viewDist c) 1) (maxViewDist c)) c in
  let '(c0, c1, c2) := center c in
  (c, [ Translate (0, 0, - viewDist c);
        Rotate (xRot c) (1, 0, 0);
        Rotate (yRot c) (0, 1, 0);
        Translate (- c0, - c1, - c2) ]).

End InteractiveCanvas.

(** ** The component script: refs, module-level variables and the platform *)

Inductive EventType :=
| mousedown | mousemove | mouseup | wheel | touchstart | touchmove | touchend.

Inductive EventTarget := CanvasElement | OwnerDocument.

(** The seven arrow-function properties of an instance. *)
Inductive Handler :=
| HandleMouseDown | HandleMouseMove | HandleMouseUp | HandleWheel
| HandleTouchStart | HandleTouchMove | HandleTouchEnd.

#[global] Instance EventType_eq_dec : EqDecision EventType.
Proof. solve_decision. Defined.
#[global] Instance EventTarget_eq_dec : EqDecision EventTarget.
Proof. solve_decision. Defined.
#[global] Instance Handler_eq_dec : EqDecision Handler.
Proof. solve_decision. Defined.

(** An entry of a target's listener list: the event type and the callback,
    a handler of the instance [this] (an object reference). *)
Record Listener := {
  target : EventTarget;
  type : EventType;
  this : nat;
  callback : Handler
}.

#[global] Instance Listener_eq_dec : EqDecision Listener.
Proof. solve_decision. Defined.

Inductive Event :=
| MouseDown (evt : MouseEvent.t)
| MouseMove (evt : MouseEvent.t)
| MouseUp (evt : MouseEvent.t)
| Wheel (evt : WheelEvent.t)
| TouchStart (evt : TouchEvent.t)
| TouchMove (evt : TouchEvent.t)
| TouchEnd (evt : TouchEvent.t).

Definition typeOf (e : Event) : EventType :=
  match e with
  | MouseDown _ => mousedown
  | MouseMove _ => mousemove
  | MouseUp _ => mouseup
  | Wheel _ => wheel
  | TouchStart _ => touchstart
  | TouchMove _ => touchmove
  | TouchEnd _ => touchend
  end.

(** A callback queued by [requestAnimationFrame]: the module-level [redraw]
    or the closure [() => this.renderImmediately()] of an instance. *)
Inductive FrameCallback :=
| Redraw
| RenderImmediately (this : nat).

(** Calls on the WebGL context and the renderer made by [onRender]. *)
Inductive GLCall :=
| Clear
| Viewport (x y width height : N)
| DrawStructure (renderer : nat) (view : mat4)
| DrawGrid (renderer : nat) (view : mat4)
| DrawInvisibleBlocks (renderer : nat) (view : mat4).

Record Options := { grid : bool; invisibleBlocks : bool }.

#[global] Instance Options_eq_dec : EqDecision Options.
Proof. solve_decision. Defined.

Record Container := { clientWidth : N; clientHeight : N }.

(** The canvas element: its backing-store size, and whether
    [getContext('webgl')] yields a context. *)
Record Canvas := { width : N; height : N; webgl : bool }.

Inductive Resources := resourceBundle.

Record World := {
  (* template refs, the resource store and the props *)
  container : option Container;
  canvas : option Canvas;
  isReady : bool;
  resources : option Resources;
  structure : float * float * float;
  options : Options;
  (* let renderer, let interactiveCanvas *)
  renderer : option nat;
  interactiveCanvas : option nat;
  (* the InteractiveCanvas objects allocated so far, by reference *)
  objects : gmap nat InteractiveCanvas.t;
  nextObject : nat;
  (* the platform: listener lists, animation-frame queue, WebGL calls *)
  listeners : list Listener;
  animationFrames : list FrameCallback;
  gl : list GLCall
}.

Definition set_canvas (v : option Canvas) (w : World) : World :=
  {| container := container w; canvas := v; isReady := isReady w;
     resources := resources w; structure := structure w; options := options w;
     renderer := renderer w; interactiveCanvas := interactiveCanvas w;
     objects := objects w; nextObject := nextObject w;
     listeners := listeners w; animationFrames := animationFrames w;
     gl := gl w |}.

Definition set_renderer (v : option nat) (w : World) : World :=
  {| container := container w; canvas := canvas w; isReady := isReady w;
     resources := resources w; structure := structure w; options := options w;
     renderer := v; interactiveCanvas := interactiveCanvas w;
     objects := objects w; nextObject := nextObject w;
     listeners := listeners w; animationFrames := animationFrames w;
     gl := gl w |}.

Definition set_interactiveCanvas (v : option nat) (w : World) : World :=
  {| container := container w; canvas := canvas w; isReady := isReady w;
     resources := resources w; structure := structure w; options := options w;
     renderer := renderer w; interactiveCanvas := v;
     objects := objects w; nextObject := nextObject w;
     listeners := listeners w; animationFrames := animationFrames w;
     gl := gl w |}.

Definition set_objects (v : gmap nat InteractiveCanvas.t) (w : World) : World :=
  {| container := container w; canvas := canvas w; isReady := isReady w;
     resources := resources w; structure := structure w; options := options w;
     renderer := renderer w; interactiveCanvas := interactiveCanvas w;
     objects := v; nextObject := nextObject w;
     listeners := listeners w; animationFrames := animationFrames w;
     gl := gl w |}.

Definition set_nextObject (v : nat) (w : World) : World :=
  {| container := container w; canvas := canvas w; isReady := isReady w;
     resources := resources w; structure := structure w; options := options w;
     renderer := renderer w; interactiveCanvas := interactiveCanvas w;
     objects := objects w; nextObject := v;
     listeners := listeners w; animationFrames := animationFrames w;
     gl := gl w |}.

Definition set_listeners (v : list Listener) (w : World) : World :=
  {| container := container w; canvas := canvas w; isReady := isReady w;
     resources := resources w; structure := structure w; options := options w;
     renderer := renderer w; interactiveCanvas := interactiveCanvas w;
     objects := objects w; nextObject := nextObject w;
     listeners := v; animationFrames := animationFrames w;
     gl := gl w |}.

Definition set_animationFrames (v : list FrameCallback) (w : World) : World :=
  {| container := container w; canvas := canvas w; isReady := isReady w;
     resources := resources w; structure := structure w; options := options w;
     renderer := renderer w; interactiveCanvas := interactiveCanvas w;
     objects := objects w; nextObject := nextObject w;
     listeners := listeners w; animationFrames := v;
     gl := gl w |}.

Definition set_gl (v : list GLCall) (w : World) : World :=
  {| container := container w; canvas := canvas w; isReady := isReady w;
     resources := resources w; structure := structure w; options := options w;
     renderer := renderer w; interactiveCanvas := interactiveCanvas w;
     objects := objects w; nextObject := nextObject w;
     listeners := listeners w; animationFrames := animationFrames w;
     gl := v |}.

(** *** Platform primitives *)

(** [target.addEventListener(type, callback)]: a listener already in the
    list is not added twice. *)
Definition addEventListener (l : Listener) (w : World) : World :=
  if bool_decide (l ∈ listeners w) then w
  else set_listeners (listeners w ++ [l]) w.

Definition removeEventListener (l : Listener) (w : World) : World :=
  set_listeners (filter (fun l' => l' ≠ l) (listeners w)) w.

Definition requestAnimationFrame (cb : FrameCallback) (w : World) : World :=
  set_animationFrames (animationFrames w ++ [cb]) w.

(** The listeners an instance's constructor attaches, in source order:
    five on the canvas, two on its owner document. *)
Definition listenersOf (this : nat) : list Listener :=
  [ {| target := CanvasElement; type := mousedown; this := this; callback := HandleMouseDown |};
    {| target := OwnerDocument; type := mousemove; this := this; callback := HandleMouseMove |};
    {| target := OwnerDocument; type := mouseup; this := this; callback := HandleMouseUp |};
    {| target := CanvasElement; type := wheel; this := this; callback := HandleWheel |};
    {| target := CanvasElement; type := touchstart; this := this; callback := HandleTouchStart |};
    {| target := CanvasElement; type := touchmove; this := this; callback := HandleTouchMove |};
    {| target := CanvasElement; type := touchend; this := this; callback := HandleTouchEnd |} ].

(** [new InteractiveCanvas(canvas, onRender, size)]: allocates the object
    and attaches its listeners; yields the reference. *)
Definition construct (size : float * float * float) (w : World) : nat * World :=
  let this := nextObject w in
  let w := set_nextObject (S this) w in
  let w := set_objects (<[this := InteractiveCanvas.new size]> (objects w)) w in
  (this, foldl (fun w l => addEventListener l w) w (listenersOf this)).

(** [destroy()]. *)
Definition destroy (this : nat) (w : World) : World :=
  foldl (fun w l => removeEventListener l w) w (listenersOf this).

(** [redraw()] of an instance. *)
Definition redrawInstance (this : nat) (w : World) : World :=
  requestAnimationFrame (RenderImmediately this) w.

(** *** The script's functions *)

(** The [ResizeObserver] callback. *)
Definition resizeObserverCallback (w : World) : World :=
  match container w, canvas w with
  | Some ct, Some cv =>
      let cv := {| width := clientWidth ct; height := clientHeight ct;
                   webgl := webgl cv |} in
      requestAnimationFrame Redraw (set_canvas (Some cv) w)
  | _, _ => w
  end.

(** The render callback handed to the constructor in [redraw]. It reads
    [canvas.value], [renderer] and [props.options] when it runs; a missing
    canvas or renderer makes the non-null assertion throw, which ends the
    callback. *)
Definition onRender (view : mat4) (w : World) : World :=
  let w := set_gl (gl w ++ [Clear]) w in
  match canvas w with
  | None => w
  | Some cv =>
      let w := set_gl (gl w ++ [Viewport 0 0 (width cv) (height cv)]) w in
      match renderer w with
      | None => w
      | Some r =>
          let w := set_gl (gl w ++ [DrawStructure r view]) w in
          let w := if grid (options w)
                   then set_gl (gl w ++ [DrawGrid r view]) w else w in
          if invisibleBlocks (options w)
          then set_gl (gl w ++ [DrawInvisibleBlocks r view]) w else w
      end
  end.

(** The module-level [redraw]. The new [StructureRenderer] is an object of
    its own, known here by its reference only. *)
Definition redraw (w : World) : World :=
  if negb (isReady w) then w else
  match resources w, canvas w with
  | Some _, Some cv =>
      if negb (webgl cv) then w else
      let w := match interactiveCanvas w with
               | Some this => set_interactiveCanvas None (destroy this w)
               | None => w
               end in
      let w := match renderer w with
               | Some _ => set_renderer None w
               | None => w
               end in
      let size := structure w in
      let r := nextObject w in
      let w := set_renderer (Some r) (set_nextObject (S r) w) in
      let '(this, w) := construct size w in
      let w := set_interactiveCanvas (Some this) w in
      redrawInstance this w
  | _, _ => w
  end.

(** The [watch] on the two option flags: [interactiveCanvas?.redraw()]. *)
Definition optionsWatcher (w : World) : World :=
  match interactiveCanvas w with
  | Some this => redrawInstance this w
  | None => w
  end.

(** [onUnmounted], after [resizeObserver.disconnect()]. *)
Definition onUnmounted (w : World) : World :=
  match interactiveCanvas w with
  | Some this => destroy this w
  | None => w
  end.

Definition runFrameCallback (w : World) (cb : FrameCallback) : World :=
  match cb with
  | Redraw => redraw w
  | RenderImmediately this =>
      match objects w !! this with
      | Some c =>
          let '(c, view) := InteractiveCanvas.renderImmediately c in
          onRender view (set_objects (<[this := c]> (objects w)) w)
      | None => w
      end
  end.

(** One animation frame: the callbacks queued so far run in order; what they
    queue waits for the next frame. *)
Definition animationFrame (w : World) : World :=
  foldl runFrameCallback (set_animationFrames [] w) (animationFrames w).

(** What can happen to a mounted component: the observer reports a new
    container size, an event is dispatched, the parent changes the option
    flags, or the browser runs an animation frame. *)
Inductive Input :=
| Resized (ct : Container)
| Dispatched (tgt : EventTarget) (e : Event)
| OptionsChanged (o : Options)
| AnimationFrame.

Definition set_container (v : option Container) (w : World) : World :=
  {| container := v; canvas := canvas w; isReady := isReady w;
     resources := resources w; structure := structure w; options := options w;
     renderer := renderer w; interactiveCanvas := interactiveCanvas w;
     objects := objects w; nextObject := nextObject w;
     listeners := listeners w; animationFrames := animationFrames w;
     gl := gl w |}.

Definition set_options (v : Options) (w : World) : World :=
  {| container := container w; canvas := canvas w; isReady := isReady w;
     resources := resources w; structure := structure w; options := v;
     renderer := renderer w; interactiveCanvas := interactiveCanvas w;
     objects := objects w; nextObject := nextObject w;
     listeners := listeners w; animationFrames := animationFrames w;
     gl := gl w |}.

Section Dispatch.
Context `{Math}.

(** A listener's callback applied to an event of the listener's type. *)
Definition call (h : Handler) (e : Event) (c : InteractiveCanvas.t)
  : InteractiveCanvas.t * list Effect :=
  match h, e with
  | HandleMouseDown, MouseDown evt => InteractiveCanvas.handleMouseDown c evt
  | HandleMouseMove, MouseMove evt => InteractiveCanvas.handleMouseMove c evt
  | HandleMouseUp, MouseUp _ => InteractiveCanvas.handleMouseUp c
  | HandleWheel, Wheel evt => InteractiveCanvas.handleWheel c evt
  | HandleTouchStart, TouchStart evt => InteractiveCanvas.handleTouchStart c evt
  | HandleTouchMove, TouchMove evt => InteractiveCanvas.handleTouchMove c evt
  | HandleTouchEnd, TouchEnd evt => InteractiveCanvas.handleTouchEnd c evt
  | _, _ => (c, [])
  end.

Definition perform (this : nat) (w : World) (eff : Effect) : World :=
  match eff with
  | PreventDefault => w
  | RequestAnimationFrame => redrawInstance this w
  end.

Definition invoke (e : Event) (w : World) (l : Listener) : World :=
  match objects w !! this l with
  | Some c =>
      let '(c, effects) := call (callback l) e c in
      foldl (perform (this l)) (set_objects (<[this l := c]> (objects w)) w) effects
  | None => w
  end.

(** The targets on an event's path: all seven event types bubble from the
    canvas to its document. *)
Definition path (tgt : EventTarget) : list EventTarget :=
  match tgt with
  | CanvasElement => [CanvasElement; OwnerDocument]
  | OwnerDocument => [OwnerDocument]
  end.

Definition listening (tgt : EventTarget) (e : Event) (w : World) : list Listener :=
  filter (fun l => target l = tgt ∧ type l = typeOf e) (listeners w).

(** [tgt.dispatchEvent(e)]. *)
Definition dispatchEvent (tgt : EventTarget) (e : Event) (w : World) : World :=
  foldl (invoke e) w (path tgt ≫= fun t => listening t e w).

Definition step (w : World) (i : Input) : World :=
  match i with
  | Resized ct => resizeObserverCallback (set_container (Some ct) w)
  | Dispatched tgt e => dispatchEvent tgt e w
  | OptionsChanged o =>
      if bool_decide (o = options w) then w
      else optionsWatcher (set_options o w)
  | AnimationFrame => animationFrame w
  end.

Definition run (w : World) (inputs : list Input) : World :=
  foldl step w inputs.

End Dispatch.

(** A freshly mounted component: both refs bound, nothing built yet. *)
Definition mounted (cv : Canvas) (ct : Container) (ready : bool)
    (res : option Resources) (size : float * float * float) (o : Options) : World :=
  {| container := Some ct; canvas := Some cv; isReady := ready;
     resources := res; structure := size; options := o;
     renderer := None; interactiveCanvas := None;
     objects := ∅; nextObject := 0;
     listeners := []; animationFrames := []; gl := [] |}.

(** ** The user store *)

Module UserStore.

(** The responses of the two endpoints, as [set] destructures them. *)
Record NameResponse := { name : string }.
Record UserResponse (User : Type) := { user_of : User }.
Arguments user_of {User} _.

Section Store.
(** [User] is the record type of [@/types/user]; [Error] stands for the
    reasons a request may be rejected with. *)
Variables User Error : Type.

Record t := { flag : bool; user : option User }.

(** A settled promise. *)
Inductive Settled (A : Type) :=
| Fulfilled (a : A)
| Rejected (e : Error).
Arguments Fulfilled {A} a.
Arguments Rejected {A} e.

(** The two functions of [@/core/api.ts] that the store calls, by the
    way each request settles. *)
Record Api := {
  getUserName : string -> Settled NameResponse;
  getUser : string -> Settled (UserResponse User)
}.

(** What a run of the action does, in order. *)
Inductive Op :=
| AssignFlag (b : bool)
| CallGetUserName (id : string)
| CallGetUser (name : string)
| AssignUser (u : option User).

(** An asynchronous computation over the store: it reads the API, updates
    the state, appends to the trace, and settles. A rejection of an
    awaited promise ends it at once. *)
Definition Async (A : Type) : Type :=
  Api -> t -> list Op -> t * list Op * Settled A.

Definition ret {A} (a : A) : Async A :=
  fun _ s tr => (s, tr, Fulfilled a).

Definition bind {A B} (m : Async A) (k : A -> Async B) : Async B :=
  fun api s tr =>
    match m api s tr with
    | (s, tr, Fulfilled a) => k a api s tr
    | (s, tr, Rejected e) => (s, tr, Rejected e)
    end.

Definition assignFlag (b : bool) : Async unit :=
  fun _ s tr => ({| flag := b; user := user s |}, tr ++ [AssignFlag b], Fulfilled tt).

Definition assignUser (u : option User) : Async unit :=
  fun _ s tr => ({| flag := flag s; user := u |}, tr ++ [AssignUser u], Fulfilled tt).

Definition awaitGetUserName (id : string) : Async NameResponse :=
  fun api s tr => (s, tr ++ [CallGetUserName id], getUserName api id).

Definition awaitGetUser (n : string) : Async (UserResponse User) :=
  fun api s tr => (s, tr ++ [CallGetUser n], getUser api n).

(** [async set(id?: string)]. The condition [if (id)] holds for a
    non-empty string only: [undefined] and the empty string are falsy. *)
Definition set (id : option string) : Async unit :=
  match id with
  | Some (String _ _ as id) =>
      bind (assignFlag true) (fun _ =>
      bind (awaitGetUserName id) (fun r1 =>
      bind (awaitGetUser (name r1)) (fun r2 =>
      assignUser (Some (user_of r2)))))
  | Some EmptyString | None =>
      bind (assignFlag false) (fun _ => assignUser None)
  end.

(** One call of an action, from a given state, with an empty trace. *)
Definition dispatch {A} (m : Async A) (api : Api) (s : t) : t * list Op * Settled A :=
  m api s [].

(** The state the store starts in. *)
Definition state : t := {| flag := false; user := None |}.

End Store.

Arguments Fulfilled {Error A} a.
Arguments Rejected {Error A} e.
Arguments flag {User} _.
Arguments user {User} _.
Arguments AssignFlag {User} b.
Arguments CallGetUserName {User} id.
Arguments CallGetUser {User} name.
Arguments AssignUser {User} u.
Arguments getUserName {User Error} _ _.
Arguments getUser {User Error} _ _.
Arguments set {User Error} id.
Arguments dispatch {User Error A} m api s.
Arguments state {User}.

End UserStore.

(** ** The user store under the event loop

    [set] is an [async] function: a call runs up to its first [await] and
    returns; the rest runs, one stretch at a time, when the awaited promise
    has settled. Between two stretches other code runs, another call of
    [set] included. *)

Module EventLoop.

Section Loop.
Variables User Error : Type.

Local Abbreviation store := (UserStore.t User).
Local Abbreviation Op := (UserStore.Op User).
Local Abbreviation Settled := (UserStore.Settled Error).
Local Abbreviation Api := (UserStore.Api User Error).

(** The body of an [async] function as the event loop sees it: it runs
    until it returns, throws, or reaches an [await], where the rest of the
    body waits for the awaited promise. *)
Inductive Fiber :=
| Return (r : Settled unit)
| Assign (op : Op) (k : Fiber)
| AwaitGetUserName (id : string) (k : UserStore.NameResponse -> Fiber)
| AwaitGetUser (n : string) (k : UserStore.UserResponse User -> Fiber).

(** [async set(id?: string)], statement by statement. *)
Definition set (id : option string) : Fiber :=
  match id with
  | Some (String _ _ as id) =>
      Assign (UserStore.AssignFlag true)
        (AwaitGetUserName id (fun r1 =>
         AwaitGetUser (UserStore.name r1) (fun r2 =>
         Assign (UserStore.AssignUser (Some (UserStore.user_of r2)))
           (Return (UserStore.Fulfilled tt)))))
  | Some EmptyString | None =>
      Assign (UserStore.AssignFlag false)
        (Assign (UserStore.AssignUser None) (Return (UserStore.Fulfilled tt)))
  end.

(** An assignment to a field of the store. *)
Definition assign (op : Op) (s : store) : store :=
  match op with
  | UserStore.AssignFlag b => {| UserStore.flag := b; UserStore.user := UserStore.user s |}
  | UserStore.AssignUser u => {| UserStore.flag := UserStore.flag s; UserStore.user := u |}
  | _ => s
  end.

(** Where a call stands between two turns of the loop. *)
Inductive Call :=
| Completed (r : Settled unit)
| OnGetUserName (id : string) (k : UserStore.NameResponse -> Fiber)
| OnGetUser (n : string) (k : UserStore.UserResponse User -> Fiber).

(** One turn: the body runs on, without interruption, up to its next
    [await] (where the request is issued) or to its end. *)
Fixpoint advance (f : Fiber) (s : store) : store * list Op * Call :=
  match f with
  | Return r => (s, [], Completed r)
  | Assign op k =>
      let '(s', tr, c) := advance k (assign op s) in (s', op :: tr, c)
  | AwaitGetUserName id k => (s, [UserStore.CallGetUserName id], OnGetUserName id k)
  | AwaitGetUser n k => (s, [UserStore.CallGetUser n], OnGetUser n k)
  end.

(** The awaited promise of a suspended call settles, as the API has it:
    a fulfilment resumes the body with the value, a rejection ends the
    call. *)
Definition resume (api : Api) (c : Call) (s : store) : store * list Op * Call :=
  match c with
  | Completed r => (s, [], c)
  | OnGetUserName id k =>
      match UserStore.getUserName api id with
      | UserStore.Fulfilled r => advance (k r) s
      | UserStore.Rejected e => (s, [], Completed (UserStore.Rejected e))
      end
  | OnGetUser n k =>
      match UserStore.getUser api n with
      | UserStore.Fulfilled r => advance (k r) s
      | UserStore.Rejected e => (s, [], Completed (UserStore.Rejected e))
      end
  end.

(** What the loop works on: the store, the calls of [set] made so far,
    and what was done, in order. *)
Record Runtime := { state : store; calls : list Call; trace : list Op }.

(** What the loop does next: a caller invokes [set(id)], or the promise
    that call number [k] awaits settles. *)
Inductive Turn :=
| Invoke (id : option string)
| Settle (k : nat).

Definition turn (api : Api) (p : Runtime) (t : Turn) : Runtime :=
  match t with
  | Invoke id =>
      let '(s, tr, c) := advance (set id) (state p) in
      {| state := s; calls := calls p ++ [c]; trace := trace p ++ tr |}
  | Settle k =>
      match calls p !! k with
      | Some c =>
          let '(s, tr, c') := resume api c (state p) in
          {| state := s; calls := <[k := c']> (calls p); trace := trace p ++ tr |}
      | None => p
      end
  end.

Definition turns (api : Api) (p : Runtime) (ts : list Turn) : Runtime :=
  foldl (turn api) p ts.

(** Before any call. *)
Definition start (s : store) : Runtime :=
  {| state := s; calls := []; trace := [] |}.

End Loop.

Arguments Return {User Error} r.
Arguments Assign {User Error} op k.
Arguments AwaitGetUserName {User Error} id k.
Arguments AwaitGetUser {User Error} n k.
Arguments set {User Error} id.
Arguments Completed {User Error} r.
Arguments turns {User Error} api p ts.
Arguments start {User Error} s.
Arguments state {User Error} _.
Arguments calls {User Error} _.
Arguments trace {User Error} _.

End EventLoop.

(** ** Vocabulary of the statements *)

Definition mouseAt (b : Z) (x y : float) : MouseEvent.t :=
  {| MouseEvent.button := b; MouseEvent.clientX := x; MouseEvent.clientY := y |}.

Definition touchAt (x y : float) : Touch.t :=
  {| Touch.clientX := x; Touch.clientY := y |}.

Definition oneFinger (t : Touch.t) : TouchEvent.t :=
  {| TouchEvent.touches := [t] |}.

Definition twoFingers (t1 t2 : Touch.t) : TouchEvent.t :=
  {| TouchEvent.touches := [t1; t2] |}.

(** The camera after the pointer went from the anchor [(x0, y0)] to
    [(x, y)]: both angles advanced by a hundredth of the movement, and the
    anchor moved to the pointer. *)
Definition dragged (c : InteractiveCanvas.t) (x0 y0 x y : float) : InteractiveCanvas.t :=
  InteractiveCanvas.set_dragPos (Some (x, y))
    (InteractiveCanvas.set_xRot (InteractiveCanvas.xRot c + (y - y0) / 100)%float
      (InteractiveCanvas.set_yRot (InteractiveCanvas.yRot c + (x - x0) / 100)%float c)).

(** The view matrix of a camera: back by [viewDist], turned by [xRot] about
    the x axis and by [yRot] about the y axis, centred on the structure. *)
Definition viewOf (c : InteractiveCanvas.t) : mat4 :=
  let '(c0, c1, c2) := InteractiveCanvas.center c in
  [ Translate (0, 0, - InteractiveCanvas.viewDist c)%float;
    Rotate (InteractiveCanvas.xRot c) (1, 0, 0)%float;
    Rotate (InteractiveCanvas.yRot c) (0, 1, 0)%float;
    Translate (- c0, - c1, - c2)%float ].

(** The two clamps between the camera [c] before a render and the camera
    [c'] it shows. A [NaN] passes a clamp unchanged, and only a [NaN] comes
    out as one; a distance bound below [1] wins over the lower bound. *)
Definition clamped (c c' : InteractiveCanvas.t) : Prop :=
  (if is_nan (InteractiveCanvas.xRot c)
   then JS.isNaN (InteractiveCanvas.xRot c')
   else JS.between (- JS.PI / 2) (JS.PI / 2) (InteractiveCanvas.xRot c')) /\
  (if is_nan (InteractiveCanvas.viewDist c) || is_nan (InteractiveCanvas.maxViewDist c)
   then JS.isNaN (InteractiveCanvas.viewDist c')
   else JS.between 1 (InteractiveCanvas.maxViewDist c') (InteractiveCanvas.viewDist c') \/
        (JS.lt (InteractiveCanvas.maxViewDist c') 1 /\
         InteractiveCanvas.viewDist c' = InteractiveCanvas.maxViewDist c')).

(** The angle [y'] that a render shows for the accumulated angle [y]: it
    is [y % (2 * PI)]; it is [NaN] or smaller than [2 * PI] in magnitude;
    and when [y] is finite its value is the remainder of the value of [y]
    by the value of [2 * PI], truncated towards zero. *)
Definition wrapped (y y' : float) : Prop :=
  y' = JS.rem y (JS.PI * 2)%float /\
  (JS.isNaN y' \/ JS.lt (abs y') (JS.PI * 2)%float) /\
  (is_finite y = true ->
   JS.units y' = Z.rem (JS.units y) (JS.units (JS.PI * 2)%float)).

(** Every listener of the page was attached by the constructor of the
    instance it belongs to. *)
Definition attachedByConstructors (w : World) : Prop :=
  forall l, l ∈ listeners w -> l ∈ listenersOf (this l).

(** The camera after a run of two-finger [touchmove]s, each given by the
    positions of its two touches. *)
Definition pinchMoves `{Math} (c : InteractiveCanvas.t)
    (moves : list (Touch.t * Touch.t)) : InteractiveCanvas.t :=
  foldl (fun c m => fst (InteractiveCanvas.handleTouchMove c (twoFingers m.1 m.2)))
        c moves.

(** References are handed out in increasing order: whatever the script
    or the page holds was allocated before [nextObject]. *)
Definition allocated (w : World) : Prop :=
  (forall r, renderer w = Some r -> r < nextObject w) /\
  (forall i, interactiveCanvas w = Some i -> i < nextObject w) /\
  (forall l, l ∈ listeners w -> this l < nextObject w) /\
  (forall i c, objects w !! i = Some c -> i < nextObject w).

(** Every instance was constructed for the structure of the props. *)
Definition builtForStructure (w : World) : Prop :=
  forall i c, objects w !! i = Some c ->
    InteractiveCanvas.maxViewDist c
      = InteractiveCanvas.maxViewDist (InteractiveCanvas.new (structure w)).

Definition wellFormed (w : World) : Prop :=
  attachedByConstructors w /\ allocated w /\ builtForStructure w.

(** At most one live controller: the listeners of the page are those of
    the instance the script holds, in the order its constructor attached
    them; the script holds an instance exactly when it holds a renderer. *)
Definition oneLiveController (w : World) : Prop :=
  listeners w = match interactiveCanvas w with
                | Some i => listenersOf i
                | None => []
                end /\
  (forall i, interactiveCanvas w = Some i -> is_Some (objects w !! i)) /\
  (is_Some (interactiveCanvas w) <-> is_Some (renderer w)).

(** A run of dispatched events, each with its target. *)
Definition dispatchAll `{Math} (events : list (EventTarget * Event)) (w : World) : World :=
  foldl (fun w te => dispatchEvent te.1 te.2 w) w events.

(** [redraw] goes past its guards exactly when the store is ready, the
    resources are loaded and the canvas yields a WebGL context. *)
Definition canDraw (w : World) : bool :=
  isReady w &&
  match resources w, canvas w with
  | Some _, Some cv => webgl cv
  | _, _ => false
  end.

(** What a run leaves of the environment a component was mounted in: the
    props and the resource store do not change, and the canvas stays bound
    to the same element. *)
Definition sameEnvironment (cv : Canvas) (ready : bool) (res : option Resources)
    (size : float * float * float) (w : World) : Prop :=
  structure w = size /\ isReady w = ready /\ resources w = res /\
  exists cv', canvas w = Some cv' /\ webgl cv' = webgl cv.

(** A request that the run made, as its trace shows, was rejected with
    reason [e]. *)
Definition rejectedDuring {User Error : Type} (api : UserStore.Api User Error)
    (trace : list (UserStore.Op User)) (e : Error) : Prop :=
  (exists id, UserStore.CallGetUserName id ∈ trace /\
              UserStore.getUserName api id = UserStore.Rejected e) \/
  (exists n, UserStore.CallGetUser n ∈ trace /\
             UserStore.getUser api n = UserStore.Rejected e).

(** The handler that the constructor registers for an event type. *)
Definition handlerFor (ty : EventType) : Handler :=
  match ty with
  | mousedown => HandleMouseDown
  | mousemove => HandleMouseMove
  | mouseup => HandleMouseUp
  | wheel => HandleWheel
  | touchstart => HandleTouchStart
  | touchmove => HandleTouchMove
  | touchend => HandleTouchEnd
  end.

(** Whether an event of type [ty] dispatched on [tgt] passes the target
    the constructor put the listener for [ty] on: [mousemove] and
    [mouseup] are listened for on the document, where every event of the
    page arrives; the other five on the canvas only. *)
Definition reaches (tgt : EventTarget) (ty : EventType) : bool :=
  match tgt, ty with
  | CanvasElement, _ => true
  | OwnerDocument, (mousemove | mouseup) => true
  | OwnerDocument, _ => false
  end.

(** The calls one run of the render callback makes, with the canvas [cv]
    bound, the renderer [r] at hand and the option flags [o]. *)
Definition drawCalls (cv : Canvas) (r : nat) (o : Options) (view : mat4) : list GLCall :=
  [Clear; Viewport 0 0 (width cv) (height cv); DrawStructure r view]
  ++ (if grid o then [DrawGrid r view] else [])
  ++ (if invisibleBlocks o then [DrawInvisibleBlocks r view] else []).

Definition isRender (cb : FrameCallback) : bool :=
  match cb with RenderImmediately _ => true | Redraw => false end.

(** The renders in the queue are renders of instances allocated so far. *)
Definition queuedAllocated (w : World) : Prop :=
  forall j, RenderImmediately j ∈ animationFrames w -> j < nextObject w.

(** Pointer events that cannot start a drag: moves, releases, and presses
    of a button other than the primary one. *)
Definition idle (te : EventTarget * Event) : bool :=
  match te.2 with
  | MouseMove _ | MouseUp _ => true
  | MouseDown m => negb (MouseEvent.button m =? 0)%Z
  | _ => false
  end.

(** Every instance has the size, the centre and the distance bound its
    constructor computed from the structure of the props. *)
Definition fixedAtConstruction (w : World) : Prop :=
  forall i c, objects w !! i = Some c ->
    InteractiveCanvas.size c = structure w /\
    InteractiveCanvas.center c = InteractiveCanvas.center (InteractiveCanvas.new (structure w)) /\
    InteractiveCanvas.maxViewDist c
      = InteractiveCanvas.maxViewDist (InteractiveCanvas.new (structure w)).

(** *** A sample session

    A canvas of 300 by 150 in a container of 800 by 600, resources loaded,
    a structure of 3 by 4 by 5 blocks, both overlays off. The observer
    reports the size and a frame runs: the renderer is object 0 and the
    camera object 1, its first render still queued. *)
Definition sampleMount (size : float * float * float) : World :=
  mounted {| width := 300; height := 150; webgl := true |}
          {| clientWidth := 800; clientHeight := 600 |}
          true (Some resourceBundle) size
          {| grid := false; invisibleBlocks := false |}.

Definition sampleWorld : World :=
  run (H := sqrt_hypot) (sampleMount (3, 4, 5)%float)
    [Resized {| clientWidth := 800; clientHeight := 600 |}; AnimationFrame].

(** A wheel turn that overshoots the near clamp, a frame, a wheel turn
    down to distance zero, then a pinch that starts 5 pixels apart and
    closes to a single point before the next frame. *)
Definition closingPinch : list Input :=
  [ AnimationFrame;
    Dispatched CanvasElement (Wheel {| WheelEvent.deltaY := -1000 |});
    AnimationFrame;
    Dispatched CanvasElement (Wheel {| WheelEvent.deltaY := -100 |});
    Dispatched CanvasElement (TouchStart (twoFingers (touchAt 0 0) (touchAt 3 4)));
    Dispatched CanvasElement (TouchMove (twoFingers (touchAt 7 7) (touchAt 7 7)));
    AnimationFrame ].

(** A drag of 100 by 500 pixels and the frame that shows it. *)
Definition sampleDrag : list Input :=
  [ AnimationFrame;
    Dispatched CanvasElement (MouseDown (mouseAt 0 10 10));
    Dispatched OwnerDocument (MouseMove (mouseAt 0 110 510));
    Dispatched OwnerDocument (MouseUp (mouseAt 0 110 510));
    AnimationFrame ].

(** *** A sample API for the store *)

(** Users are numbers here; every name request yields ["kkw"%string] and every
    profile request yields user 7. *)
Definition obligingApi : UserStore.Api nat string :=
  {| UserStore.getUserName := fun _ => UserStore.Fulfilled {| UserStore.name := "kkw"%string |};
     UserStore.getUser := fun _ => UserStore.Fulfilled {| UserStore.user_of := 7 |} |}.

(** The name request is refused. *)
Definition refusingApi : UserStore.Api nat string :=
  {| UserStore.getUserName := fun _ => UserStore.Rejected "503"%string;
     UserStore.getUser := fun _ => UserStore.Fulfilled {| UserStore.user_of := 7 |} |}.

(** The name request is answered, the profile request is refused. *)
Definition halfRefusingApi : UserStore.Api nat string :=
  {| UserStore.getUserName := fun _ => UserStore.Fulfilled {| UserStore.name := "kkw"%string |};
     UserStore.getUser := fun _ => UserStore.Rejected "404"%string |}.

Definition signedIn : UserStore.t nat :=
  {| UserStore.flag := true; UserStore.user := Some 1 |}.

(** An API that answers every request: the name of an id is the id, and
    the user of a name is the length of the name. *)
Definition directoryApi : UserStore.Api nat string :=
  {| UserStore.getUserName := fun id => UserStore.Fulfilled {| UserStore.name := id |};
     UserStore.getUser := fun n =>
       UserStore.Fulfilled {| UserStore.user_of := String.length n |} |}.

(** The observer reports the size, a frame builds the renderer and the
    camera, and a second frame draws the first picture. *)
Definition settledMount : list Input :=
  [Resized {| clientWidth := 800; clientHeight := 600 |}; AnimationFrame; AnimationFrame].

(** * Properties *)

(** ** Binary64 values: order, clamps, finiteness *)

Module Binary64.

Local Open Scope float_scope.

Import JS.

Lemma SFcompare_swap x y :
  SFcompare y x = option_map CompOpp (SFcompare x y).
Proof.
  destruct x as [[]|[]| |[] mx ex], y as [[]|[]| |[] my ey]; simpl; try reflexivity;
    rewrite (Z.compare_antisym ey ex);
    destruct (ey ?= ex)%Z; simpl; try reflexivity;
    rewrite (Pos.compare_cont_antisym mx my Eq); simpl;
    rewrite ?CompOpp_involutive; reflexivity.
Qed.

Lemma SFcompare_diag x : x <> S754_nan -> SFcompare x x = Some Eq.
Proof.
  destruct x as [[]|[]| |[] m e]; simpl; try congruence; intros _.
  - rewrite Z.compare_refl.
    change (Pos.compare_cont Eq m m) with (m ?= m)%positive.
    now rewrite Pos.compare_refl.
  - rewrite Z.compare_refl.
    change (Pos.compare_cont Eq m m) with (m ?= m)%positive.
    now rewrite Pos.compare_refl.
Qed.

Lemma is_nan_SF x : is_nan x = false <-> Prim2SF x <> S754_nan.
Proof.
  unfold is_nan. rewrite FloatAxioms.eqb_spec. unfold SFeqb. split.
  - intros E N. rewrite N in E. discriminate.
  - intros N. now rewrite (SFcompare_diag _ N).
Qed.

Lemma le_refl a : is_nan a = false -> le a a.
Proof.
  intros N. apply is_nan_SF in N. unfold le.
  rewrite leb_spec. unfold SFleb. now rewrite (SFcompare_diag _ N).
Qed.

Lemma lt_le a b : lt a b -> le a b.
Proof.
  unfold lt, le. rewrite ltb_spec, leb_spec. unfold SFltb, SFleb.
  destruct (SFcompare _ _) as [[]|]; congruence.
Qed.

Lemma compare_some a b :
  is_nan a = false -> is_nan b = false ->
  exists c, SFcompare (Prim2SF a) (Prim2SF b) = Some c.
Proof.
  intros Na Nb. apply is_nan_SF in Na, Nb.
  destruct (Prim2SF a) as [[]|[]| |[] ? ?], (Prim2SF b) as [[]|[]| |[] ? ?];
    simpl; try congruence; eauto.
Qed.

Lemma not_lt_le a b :
  is_nan a = false -> is_nan b = false -> (a <? b) = false -> le b a.
Proof.
  intros Na Nb. unfold le. rewrite ltb_spec, leb_spec. unfold SFltb, SFleb.
  rewrite (SFcompare_swap (Prim2SF a) (Prim2SF b)).
  destruct (compare_some a b Na Nb) as [c ->].
  destruct c; simpl; congruence.
Qed.

Lemma not_le_lt a b :
  is_nan a = false -> is_nan b = false -> (a <=? b) = false -> lt b a.
Proof.
  intros Na Nb. unfold lt. rewrite ltb_spec, leb_spec. unfold SFltb, SFleb.
  rewrite (SFcompare_swap (Prim2SF a) (Prim2SF b)).
  destruct (compare_some a b Na Nb) as [c ->].
  destruct c; simpl; congruence.
Qed.

Lemma le_not_nan a b : le a b -> is_nan a = false /\ is_nan b = false.
Proof.
  unfold le. rewrite leb_spec, !is_nan_SF. unfold SFleb.
  destruct (Prim2SF a) as [[]|[]| |[] ? ?], (Prim2SF b) as [[]|[]| |[] ? ?];
    simpl; intros; split; congruence.
Qed.

Lemma max_nan a b : is_nan (JS.max a b) = is_nan a || is_nan b.
Proof.
  unfold JS.max. destruct (is_nan a || is_nan b) eqn:E; [reflexivity|].
  apply orb_false_elim in E as [Na Nb].
  destruct (_ && _); [assumption|]. now destruct (a <? b).
Qed.

Lemma min_nan a b : is_nan (JS.min a b) = is_nan a || is_nan b.
Proof.
  unfold JS.min. destruct (is_nan a || is_nan b) eqn:E; [reflexivity|].
  apply orb_false_elim in E as [Na Nb].
  destruct (_ && _); [assumption|]. now destruct (b <? a).
Qed.

Lemma zeros_le a b sa sb :
  Prim2SF a = S754_zero sa -> Prim2SF b = S754_zero sb -> le a b.
Proof. intros Ea Eb. unfold le. now rewrite leb_spec, Ea, Eb. Qed.

Lemma is_pos_zero_SF x : JS.is_pos_zero x = true -> Prim2SF x = S754_zero false.
Proof. unfold JS.is_pos_zero. now destruct (Prim2SF x) as [[]|[]| |[] ? ?]. Qed.

Lemma is_neg_zero_SF x : JS.is_neg_zero x = true -> Prim2SF x = S754_zero true.
Proof. unfold JS.is_neg_zero. now destruct (Prim2SF x) as [[]|[]| |[] ? ?]. Qed.

(** [Math.max] of two numbers is one of them and bounds both. *)
Lemma max_spec a b :
  is_nan a = false -> is_nan b = false ->
  (JS.max a b = a \/ JS.max a b = b) /\ le a (JS.max a b) /\ le b (JS.max a b).
Proof.
  intros Na Nb. unfold JS.max. rewrite Na, Nb. simpl.
  destruct (_ && _) eqn:Z.
  - apply andb_true_iff in Z as [Zb Za].
    apply is_pos_zero_SF in Zb. apply is_neg_zero_SF in Za.
    split; [|split]; eauto using zeros_le, le_refl.
  - destruct (a <? b) eqn:L.
    + split; [|split]; eauto using lt_le, le_refl.
    + split; [|split]; eauto using not_lt_le, le_refl.
Qed.

(** [Math.min] of two numbers is one of them and is bounded by both. *)
Lemma min_spec a b :
  is_nan a = false -> is_nan b = false ->
  (JS.min a b = a \/ JS.min a b = b) /\ le (JS.min a b) a /\ le (JS.min a b) b.
Proof.
  intros Na Nb. unfold JS.min. rewrite Na, Nb. simpl.
  destruct (_ && _) eqn:Z.
  - apply andb_true_iff in Z as [Zb Za].
    apply is_neg_zero_SF in Zb. apply is_pos_zero_SF in Za.
    split; [|split]; eauto using zeros_le, le_refl.
  - destruct (b <? a) eqn:L.
    + split; [|split]; eauto using lt_le, le_refl.
    + split; [|split]; eauto using not_lt_le, le_refl.
Qed.

(** The clamp of [renderImmediately] on [xRot]:
    [Math.max(lo, Math.min(hi, x))] with [lo <= hi]. *)
Lemma clamp_between lo hi x :
  le lo hi -> is_nan x = false ->
  between lo hi (JS.max lo (JS.min hi x)).
Proof.
  intros Hlh Nx. destruct (le_not_nan _ _ Hlh) as [Nlo Nhi].
  destruct (min_spec hi x Nhi Nx) as (Hm & Hm1 & Hm2).
  assert (Nm : is_nan (JS.min hi x) = false) by (rewrite min_nan, Nhi, Nx; reflexivity).
  destruct (max_spec lo (JS.min hi x) Nlo Nm) as (Hr & Hr1 & Hr2).
  split; [assumption|].
  destruct Hr as [-> | ->]; assumption.
Qed.

(** The clamp on [viewDist]: [Math.min(Math.max(v, lo), hi)]. With
    [lo <= hi] the result lies between them; with [hi < lo] it is [hi]. *)
Lemma clamp_min_max lo hi v :
  is_nan lo = false -> is_nan hi = false -> is_nan v = false ->
  let r := JS.min (JS.max v lo) hi in
  between lo hi r \/ (lt hi lo /\ r = hi).
Proof.
  intros Nlo Nhi Nv r.
  destruct (max_spec v lo Nv Nlo) as (Hm & Hm1 & Hm2).
  assert (Nm : is_nan (JS.max v lo) = false) by (rewrite max_nan, Nlo, Nv; reflexivity).
  destruct (min_spec (JS.max v lo) hi Nm Nhi) as (Hr & Hr1 & Hr2).
  fold r in Hr, Hr1, Hr2.
  destruct Hr as [E | E].
  - left. split; [rewrite E|]; assumption.
  - destruct (lo <=? hi) eqn:L.
    + left. split; [rewrite E|]; assumption.
    + right. split; [|assumption]. now apply not_le_lt.
Qed.

(** A finite double is a zero or has a mantissa and an exponent. *)
Lemma finite_SF x :
  is_finite x = true ->
  (exists s, Prim2SF x = S754_zero s) \/ (exists s m e, Prim2SF x = S754_finite s m e).
Proof.
  unfold is_finite. rewrite negb_true_iff, orb_false_iff. intros [N I].
  unfold Prim2SF. rewrite N, I.
  destruct (is_zero x); [eauto|].
  destruct (Z.frexp x) as [r ex]. destruct (shr_fexp _ _ _ _ _) as [sr e'].
  destruct (shr_m sr); eauto.
Qed.

(** A finite double minus itself is [+0]. *)
Lemma sub_diag x : is_finite x = true -> x - x = 0.
Proof.
  intros F. apply Prim2SF_inj. rewrite sub_spec. unfold SF64sub.
  apply finite_SF in F as [([] & ->)|(s & m & e & ->)]; try reflexivity.
  simpl. now rewrite Z.sub_diag.
Qed.

Lemma le_not_lt a b : le b a -> (a <? b) = false.
Proof.
  unfold le. rewrite ltb_spec, leb_spec. unfold SFltb, SFleb.
  rewrite (SFcompare_swap (Prim2SF b) (Prim2SF a)).
  destruct (SFcompare (Prim2SF b) (Prim2SF a)) as [[]|]; simpl; congruence.
Qed.

(** [Math.max(a, b)] is [a] when [b <= a], unless [b] is the [+0] that
    beats a [-0]. *)
Lemma max_absorb a b : le b a -> is_pos_zero b = false -> JS.max a b = a.
Proof.
  intros L Z. destruct (le_not_nan _ _ L) as [Nb Na].
  unfold JS.max. now rewrite Na, Nb, Z, (le_not_lt _ _ L).
Qed.

(** The clamp on [xRot] is idempotent. *)
Lemma clamp_angle_idem x :
  let f := fun x => JS.max (- PI / 2) (JS.min (PI / 2) x) in
  f (f x) = f x.
Proof.
  intros f. unfold f.
  destruct (is_nan x) eqn:N.
  - assert (E : JS.min (PI / 2) x = nan) by (unfold JS.min; now rewrite N, orb_true_r).
    rewrite E. reflexivity.
  - assert (Nh : is_nan (PI / 2) = false) by reflexivity.
    assert (Nl : is_nan (- PI / 2) = false) by reflexivity.
    destruct (min_spec (PI / 2) x Nh N) as (Hm & _).
    assert (Nm : is_nan (JS.min (PI / 2) x) = false) by (rewrite min_nan, Nh, N; reflexivity).
    destruct (max_spec (- PI / 2) (JS.min (PI / 2) x) Nl Nm) as (Hr & _).
    destruct Hr as [E|E]; rewrite E.
    + reflexivity.
    + destruct Hm as [E'|E']; rewrite E' in *.
      * reflexivity.
      * now rewrite E'.
Qed.

(** The clamp on [viewDist] is idempotent, whatever the bound. *)
Lemma clamp_distance_idem v M :
  let g := fun v => JS.min (JS.max v 1) M in
  g (g v) = g v.
Proof.
  intros g. unfold g.
  destruct (is_nan v || is_nan M) eqn:N.
  - assert (E : JS.min (JS.max v 1) M = nan).
    { unfold JS.min. now rewrite max_nan, orb_false_r, N. }
    rewrite E. unfold JS.min. now rewrite max_nan.
  - apply orb_false_elim in N as [Nv NM].
    assert (N1 : is_nan 1 = false) by reflexivity.
    assert (P1 : is_pos_zero 1 = false) by reflexivity.
    destruct (max_spec v 1 Nv N1) as (_ & _ & L1).
    assert (Nm : is_nan (JS.max v 1) = false) by (rewrite max_nan, Nv; reflexivity).
    destruct (min_spec (JS.max v 1) M Nm NM) as ([E|E] & _ & L2).
    + rewrite E. rewrite (max_absorb (JS.max v 1) 1 L1) by reflexivity. exact E.
    + rewrite E. unfold JS.max at 1. rewrite NM, N1, P1. simpl.
      destruct (M <? 1) eqn:L.
      * unfold JS.min. now rewrite NM, N1, P1, andb_false_r, L.
      * unfold JS.min. rewrite NM. simpl.
        destruct (_ && _); [reflexivity|]. now destruct (M <? M).
Qed.

End Binary64.

(** ** The remainder *)

Module Remainder.

Local Open Scope Z_scope.

Lemma digits_log2 p : Zpos (digits2_pos p) = Z.log2 (Zpos p) + 1.
Proof.
  induction p as [p IH|p IH|]; simpl; try reflexivity.
  - rewrite Pos2Z.inj_succ, IH. destruct p; simpl; lia.
  - rewrite Pos2Z.inj_succ, IH. destruct p; simpl; lia.
Qed.

Lemma valid_finite s m e :
  valid_binary (S754_finite s m e) = true ->
  SpecFloat.emin prec emax <= e <= emax - prec /\ Zpos (digits2_pos m) <= prec.
Proof.
  unfold valid_binary, bounded, canonical_mantissa, fexp.
  rewrite andb_true_iff, Z.eqb_eq, Z.leb_le. lia.
Qed.

Lemma normalised_valid s r e :
  SpecFloat.emin prec emax <= e <= emax - prec -> Zpos r < 2 ^ prec ->
  let sh := Z.min (prec - Zpos (digits2_pos r)) (e - SpecFloat.emin prec emax) in
  0 <= sh /\
  valid_binary (S754_finite s (Z.to_pos (Zpos r * 2 ^ sh)) (e - sh)) = true.
Proof.
  intros He Hr sh.
  assert (Hd : Zpos (digits2_pos r) <= prec).
  { rewrite digits_log2. apply Z.log2_lt_pow2 in Hr; lia. }
  assert (Hs : 0 <= sh) by (unfold sh; lia).
  split; [assumption|].
  assert (Hp : 0 < Zpos r * 2 ^ sh) by (apply Z.mul_pos_pos; [lia|apply Z.pow_pos_nonneg; lia]).
  unfold valid_binary, bounded, canonical_mantissa, fexp.
  rewrite andb_true_iff, Z.eqb_eq, Z.leb_le.
  rewrite digits_log2, Z2Pos.id by assumption.
  rewrite Z.log2_mul_pow2 by lia.
  rewrite digits_log2 in Hd. unfold sh. rewrite digits_log2. lia.
Qed.

Lemma mantissa_lt_pow m : Zpos (digits2_pos m) <= prec -> Zpos m < 2 ^ prec.
Proof.
  rewrite digits_log2. intros H.
  apply Z.log2_lt_pow2; lia.
Qed.

Lemma rem_finite n d sn mn en sd md ed :
  Prim2SF n = S754_finite sn mn en -> Prim2SF d = S754_finite sd md ed ->
  Prim2SF (JS.rem n d) = S754_zero sn \/
  exists m' e', Prim2SF (JS.rem n d) = S754_finite sn m' e' /\
    (e' < ed \/ (e' = ed /\ (m' < md)%positive)).
Proof.
  intros En Ed.
  pose proof (Prim2SF_valid n) as Vn. rewrite En in Vn.
  pose proof (Prim2SF_valid d) as Vd. rewrite Ed in Vd.
  apply valid_finite in Vn as [Hen Hmn], Vd as [Hed Hmd].
  apply mantissa_lt_pow in Hmn, Hmd.
  unfold JS.rem. rewrite En, Ed. cbv zeta.
  set (e := Z.min en ed).
  set (N := Zpos mn * 2 ^ (en - e)). set (D := Zpos md * 2 ^ (ed - e)).
  assert (HN : 0 < N) by (apply Z.mul_pos_pos; [lia|apply Z.pow_pos_nonneg; lia]).
  assert (HD : 0 < D) by (apply Z.mul_pos_pos; [lia|apply Z.pow_pos_nonneg; lia]).
  pose proof (Z.rem_bound_pos N D ltac:(lia) HD) as HR.
  pose proof (Z.rem_le N D ltac:(lia) HD) as HR'.
  destruct (Z.rem N D) as [|r|r] eqn:ER; [| |lia].
  - left. now apply Prim2SF_SF2Prim.
  - right.
    assert (Hr : Zpos r < 2 ^ prec).
    { destruct (Z.le_gt_cases en ed) as [L|L].
      - assert (N = Zpos mn) by (unfold N, e; rewrite Z.min_l, Z.sub_diag by lia; lia). lia.
      - assert (D = Zpos md) by (unfold D, e; rewrite Z.min_r, Z.sub_diag by lia; lia). lia. }
    assert (He : SpecFloat.emin prec emax <= e <= emax - prec) by (unfold e; lia).
    destruct (normalised_valid sn r e He Hr) as [Hs V].
    set (sh := Z.min (prec - Zpos (digits2_pos r)) (e - SpecFloat.emin prec emax)) in *.
    rewrite (Prim2SF_SF2Prim _ V).
    eexists _, _. split; [reflexivity|].
    destruct (Z.eq_dec (e - sh) ed) as [E|E]; [right|left; unfold e in *; lia].
    split; [assumption|].
    assert (sh = 0) by (unfold e in *; lia).
    assert (e = ed) by lia.
    assert (D = Zpos md) by (unfold D; replace (ed - e) with 0 by lia; lia).
    replace sh with 0. rewrite Z.pow_0_r, Z.mul_1_r. simpl. lia.
Qed.

Lemma rem_not_finite n d :
  match Prim2SF n with
  | S754_nan | S754_infinity _ => JS.rem n d = nan
  | _ => True
  end.
Proof.
  unfold JS.rem. destruct (Prim2SF n) as [s|s| |s m e]; trivial.
  now destruct (Prim2SF d).
Qed.

(** The remainder by a finite non-zero divisor is [NaN] or smaller than the
    divisor in magnitude. *)
Lemma rem_bound n d sd md ed :
  Prim2SF d = S754_finite sd md ed ->
  is_nan (JS.rem n d) = true \/ (abs (JS.rem n d) <? abs d)%float = true.
Proof.
  intros Ed. destruct (Prim2SF n) as [s|s| |sn mn en] eqn:En.
  - right. unfold JS.rem. rewrite En, Ed.
    now rewrite ltb_spec, !abs_spec, En, Ed.
  - left. pose proof (rem_not_finite n d) as R. rewrite En in R. now rewrite R.
  - left. pose proof (rem_not_finite n d) as R. rewrite En in R. now rewrite R.
  - right. rewrite ltb_spec, !abs_spec, Ed.
    destruct (rem_finite n d _ _ _ _ _ _ En Ed) as [->|(m' & e' & -> & H)];
      [reflexivity|].
    unfold SFltb. simpl.
    destruct H as [H|[-> H]].
    + apply Z.compare_lt_iff in H. now rewrite H.
    + rewrite Z.compare_refl.
      change (Pos.compare_cont Eq m' md) with (m' ?= md)%positive.
      apply Pos.compare_lt_iff in H. now rewrite H.
Qed.

Lemma rem_units n d sn mn en sd md ed :
  Prim2SF n = S754_finite sn mn en -> Prim2SF d = S754_finite sd md ed ->
  JS.units (JS.rem n d) = Z.rem (JS.units n) (JS.units d).
Proof.
  intros En Ed.
  pose proof (Prim2SF_valid n) as Vn. rewrite En in Vn.
  pose proof (Prim2SF_valid d) as Vd. rewrite Ed in Vd.
  apply valid_finite in Vn as [Hen Hmn], Vd as [Hed Hmd].
  apply mantissa_lt_pow in Hmn, Hmd.
  unfold JS.units at 2 3. rewrite En, Ed.
  set (emin := SpecFloat.emin prec emax) in *.
  set (e := Z.min en ed).
  set (N := Zpos mn * 2 ^ (en - e)). set (D := Zpos md * 2 ^ (ed - e)).
  assert (HN : 0 < N) by (apply Z.mul_pos_pos; [lia|apply Z.pow_pos_nonneg; lia]).
  assert (HD : 0 < D) by (apply Z.mul_pos_pos; [lia|apply Z.pow_pos_nonneg; lia]).
  assert (P : 0 < 2 ^ (e - emin)) by (apply Z.pow_pos_nonneg; unfold e; lia).
  assert (UN : Zpos mn * 2 ^ (en - emin) = N * 2 ^ (e - emin)).
  { unfold N. rewrite <- Z.mul_assoc, <- Z.pow_add_r by (unfold e; lia).
    f_equal. f_equal. lia. }
  assert (UD : Zpos md * 2 ^ (ed - emin) = D * 2 ^ (e - emin)).
  { unfold D. rewrite <- Z.mul_assoc, <- Z.pow_add_r by (unfold e; lia).
    f_equal. f_equal. lia. }
  rewrite UN, UD.
  assert (R : Z.rem (cond_Zopp sn (N * 2 ^ (e - emin))) (cond_Zopp sd (D * 2 ^ (e - emin)))
              = cond_Zopp sn (Z.rem N D * 2 ^ (e - emin))).
  { rewrite <- (Z.mul_rem_distr_r N D (2 ^ (e - emin))) by lia.
    destruct sn, sd; simpl;
      rewrite ?Z.rem_opp_r, ?Z.rem_opp_l by lia; reflexivity. }
  rewrite R. clear R UN UD.
  pose proof (Z.rem_bound_pos N D ltac:(lia) HD) as HR.
  pose proof (Z.rem_le N D ltac:(lia) HD) as HR'.
  unfold JS.units, JS.rem. rewrite En, Ed. cbv zeta. fold e N D.
  destruct (Z.rem N D) as [|r|r] eqn:ER; [| |lia].
  - rewrite Prim2SF_SF2Prim by reflexivity. now destruct sn.
  - assert (Hr : Zpos r < 2 ^ prec).
    { destruct (Z.le_gt_cases en ed) as [L|L].
      - assert (N = Zpos mn) by (unfold N, e; rewrite Z.min_l, Z.sub_diag by lia; lia). lia.
      - assert (D = Zpos md) by (unfold D, e; rewrite Z.min_r, Z.sub_diag by lia; lia). lia. }
    assert (He : emin <= e <= emax - prec) by (unfold e; lia).
    destruct (normalised_valid sn r e He Hr) as [Hs V].
    fold emin in Hs, V |- *.
    set (sh := Z.min (prec - Zpos (digits2_pos r)) (e - emin)) in *.
    rewrite (Prim2SF_SF2Prim _ V). f_equal.
    rewrite Z2Pos.id by (apply Z.mul_pos_pos; [lia|apply Z.pow_pos_nonneg; lia]).
    rewrite <- Z.mul_assoc, <- Z.pow_add_r by (unfold sh in *; lia).
    f_equal. f_equal. lia.
Qed.

(** [y % (2 * PI)], as [wrapped] describes it. *)
Lemma rem_two_pi y : wrapped y (JS.rem y (JS.PI * 2)%float).
Proof.
  assert (D : exists md ed, Prim2SF (JS.PI * 2)%float = S754_finite false md ed)
    by (vm_compute; eauto).
  destruct D as (md & ed & Ed). split; [reflexivity|split].
  - destruct (rem_bound y _ _ _ _ Ed) as [B|B]; [now left|right].
    exact B.
  - intros F. apply Binary64.finite_SF in F as [(s & E)|(s & m & e & E)].
    + assert (R : JS.rem y (JS.PI * 2)%float = y)
        by (unfold JS.rem; now rewrite E, Ed).
      rewrite R. unfold JS.units at 1 2. now rewrite E.
    + eapply rem_units; eassumption.
Qed.

Lemma valid_canonical s m e :
  valid_binary (S754_finite s m e) = true ->
  e = Z.max (Zpos (digits2_pos m) + e - prec) (SpecFloat.emin prec emax).
Proof.
  unfold valid_binary, bounded, canonical_mantissa, fexp.
  rewrite andb_true_iff, Z.eqb_eq, Z.leb_le. lia.
Qed.

(** Two finite non-zero doubles with the same value are the same double. *)
Lemma units_inj x y s m e s' m' e' :
  Prim2SF x = S754_finite s m e -> Prim2SF y = S754_finite s' m' e' ->
  JS.units x = JS.units y -> x = y.
Proof.
  intros Ex Ey U. unfold JS.units in U. rewrite Ex, Ey in U.
  pose proof (Prim2SF_valid x) as Vx. rewrite Ex in Vx.
  pose proof (Prim2SF_valid y) as Vy. rewrite Ey in Vy.
  pose proof (valid_canonical _ _ _ Vx) as Cx.
  pose proof (valid_canonical _ _ _ Vy) as Cy.
  apply valid_finite in Vx as [Hx _], Vy as [Hy _].
  set (emin := SpecFloat.emin prec emax) in *.
  assert (Px : 0 < Zpos m * 2 ^ (e - emin)) by (apply Z.mul_pos_pos; [lia|apply Z.pow_pos_nonneg; lia]).
  assert (Py : 0 < Zpos m' * 2 ^ (e' - emin)) by (apply Z.mul_pos_pos; [lia|apply Z.pow_pos_nonneg; lia]).
  assert (S : s = s') by (destruct s, s'; simpl in U; try reflexivity; lia).
  subst s'.
  assert (M : Zpos m * 2 ^ (e - emin) = Zpos m' * 2 ^ (e' - emin))
    by (destruct s; simpl in U; lia).
  assert (L : Z.log2 (Zpos m) + (e - emin) = Z.log2 (Zpos m') + (e' - emin)).
  { pose proof (Z.log2_mul_pow2 (Zpos m) (e - emin) ltac:(lia) ltac:(lia)) as L1.
    pose proof (Z.log2_mul_pow2 (Zpos m') (e' - emin) ltac:(lia) ltac:(lia)) as L2.
    rewrite M in L1. lia. }
  rewrite digits_log2 in Cx, Cy.
  assert (E : e = e') by lia. subst e'.
  apply Z.mul_cancel_r in M; [|lia].
  apply Prim2SF_inj. rewrite Ex, Ey. congruence.
Qed.

Lemma rem_small a b : Z.abs a < Z.abs b -> Z.rem a b = a.
Proof.
  intros L. assert (B : b <> 0) by lia.
  pose proof (Z.quot_rem' a b) as E.
  apply Z.quot_small_iff in L; [|assumption]. rewrite L in E. lia.
Qed.

(** [%] by a finite non-zero divisor is idempotent. *)
Lemma rem_idem n d sd md ed :
  Prim2SF d = S754_finite sd md ed ->
  JS.rem (JS.rem n d) d = JS.rem n d.
Proof.
  intros Ed. destruct (Prim2SF n) as [s|s| |sn mn en] eqn:En.
  - assert (R : JS.rem n d = n) by (unfold JS.rem; now rewrite En, Ed).
    now rewrite !R.
  - pose proof (rem_not_finite n d) as R. rewrite En in R. rewrite R.
    unfold JS.rem. reflexivity.
  - pose proof (rem_not_finite n d) as R. rewrite En in R. rewrite R.
    unfold JS.rem. reflexivity.
  - pose proof (rem_units n d _ _ _ _ _ _ En Ed) as U.
    destruct (rem_finite n d _ _ _ _ _ _ En Ed) as [Z|(m' & e' & Er & _)].
    + unfold JS.rem at 1. now rewrite Z, Ed.
    + pose proof (rem_units _ d _ _ _ _ _ _ Er Ed) as U2.
      assert (D0 : JS.units d <> 0).
      { unfold JS.units. rewrite Ed.
        pose proof (Prim2SF_valid d) as Vd. rewrite Ed in Vd.
        apply valid_finite in Vd as [Hd _].
        assert (0 < Zpos md * 2 ^ (ed - SpecFloat.emin prec emax))
          by (apply Z.mul_pos_pos; [lia|apply Z.pow_pos_nonneg; lia]).
        destruct sd; simpl; lia. }
      assert (B : Z.abs (JS.units (JS.rem n d)) < Z.abs (JS.units d))
        by (rewrite U; now apply Z.rem_bound_abs).
      rewrite (rem_small _ _ B) in U2.
      destruct (rem_finite _ d _ _ _ _ _ _ Er Ed) as [Z|(m2 & e2 & Er2 & _)].
      * exfalso. unfold JS.units at 1 in U2. rewrite Z in U2.
        unfold JS.units in U2. rewrite Er in U2.
        pose proof (Prim2SF_valid (JS.rem n d)) as Vr. rewrite Er in Vr.
        apply valid_finite in Vr as [Hr _].
        assert (0 < Zpos m' * 2 ^ (e' - SpecFloat.emin prec emax))
          by (apply Z.mul_pos_pos; [lia|apply Z.pow_pos_nonneg; lia]).
        destruct sn; simpl in U2; lia.
      * eapply units_inj; eassumption.
Qed.

End Remainder.

(** ** The camera controller *)

Section Camera.
Context `{Math}.
Import InteractiveCanvas.
Local Open Scope float_scope.

(** C5. A drag rotates the camera by a hundredth of the pointer movement.
    After a primary-button [mousedown] at [(x0, y0)], a [mousemove] to
    [(x, y)] adds [(x - x0) / 100] to [yRot] and [(y - y0) / 100] to
    [xRot], unclamped, moves the anchor to [(x, y)] and asks for a frame;
    a further move is measured from that new anchor. The same holds for a
    one-finger [touchstart] followed by one-finger [touchmove]s. *)
Theorem drag_rotates_by_hundredth (c : t) (x0 y0 x y x' y' : float) (b b' : Z) :
  let c0 := fst (handleMouseDown c (mouseAt 0 x0 y0)) in
  let t0 := fst (handleTouchStart c (oneFinger (touchAt x0 y0))) in
  handleMouseMove c0 (mouseAt b x y)
    = (dragged c0 x0 y0 x y, [RequestAnimationFrame]) /\
  handleMouseMove (dragged c0 x0 y0 x y) (mouseAt b' x' y')
    = (dragged (dragged c0 x0 y0 x y) x y x' y', [RequestAnimationFrame]) /\
  handleTouchMove t0 (oneFinger (touchAt x y))
    = (dragged t0 x0 y0 x y, [PreventDefault; RequestAnimationFrame]) /\
  handleTouchMove (dragged t0 x0 y0 x y) (oneFinger (touchAt x' y'))
    = (dragged (dragged t0 x0 y0 x y) x y x' y',
       [PreventDefault; RequestAnimationFrame]) /\
  (xRot c0 = xRot c /\ yRot c0 = yRot c /\ viewDist c0 = viewDist c) /\
  (xRot t0 = xRot c /\ yRot t0 = yRot c /\ viewDist t0 = viewDist c) /\
  yRot (dragged c0 x0 y0 x y) = yRot c + (x - x0) / 100 /\
  xRot (dragged c0 x0 y0 x y) = xRot c + (y - y0) / 100 /\
  dragPos (dragged c0 x0 y0 x y) = Some (x, y).
Proof. repeat split; reflexivity. Qed.

Lemma pinch_move_anchors (c : t) (u1 u2 : Touch.t) :
  let c' := fst (handleTouchMove c (twoFingers u1 u2)) in
  pinchStartDist c' = pinchStartDist c /\
  pinchStartViewDist c' = pinchStartViewDist c /\
  dragPos c' = dragPos c.
Proof.
  unfold handleTouchMove. simpl.
  destruct (dragPos c) as [[]|] eqn:D; destruct (pinchArmed c) as [[]|];
    simpl; rewrite ?D; auto.
Qed.

Lemma pinchMoves_anchors (ms : list (Touch.t * Touch.t)) (c : t) :
  pinchStartDist (pinchMoves c ms) = pinchStartDist c /\
  pinchStartViewDist (pinchMoves c ms) = pinchStartViewDist c.
Proof.
  revert c. induction ms as [|[u1 u2] ms IH]; intros c; [split; reflexivity|].
  unfold pinchMoves in *. simpl.
  destruct (IH (fst (handleTouchMove c (twoFingers u1 u2)))) as [-> ->].
  destruct (pinch_move_anchors c u1 u2) as (-> & -> & _). split; reflexivity.
Qed.

Lemma two_finger_move (c : t) (u1 u2 : Touch.t) :
  handleTouchMove c (twoFingers u1 u2) =
    match pinchArmed c with
    | Some (d, v) => (set_viewDist (v / (separation u1 u2 / d)) c,
                      [PreventDefault; RequestAnimationFrame])
    | None => (c, [PreventDefault])
    end.
Proof.
  unfold handleTouchMove. simpl.
  destruct (dragPos c) as [[]|]; destruct (pinchArmed c) as [[]|]; reflexivity.
Qed.

(** C6, as amended. In a two-finger gesture whose fingers start apart
    (the starting separation is neither zero nor [NaN]), every two-finger
    [touchmove] sets [viewDist] to the distance captured at [touchstart]
    divided by the ratio of the current to the starting separation, and
    asks for a frame; earlier moves of the gesture do not matter. *)
Theorem pinch_scales_viewDist (c : t) (t1 t2 : Touch.t)
    (ms : list (Touch.t * Touch.t)) (u1 u2 : Touch.t) :
  JS.truthy (separation t1 t2) = true ->
  let c1 := fst (handleTouchStart c (twoFingers t1 t2)) in
  let c2 := pinchMoves c1 ms in
  let r := separation u1 u2 / separation t1 t2 in
  handleTouchMove c2 (twoFingers u1 u2)
    = (set_viewDist (viewDist c / r) c2, [PreventDefault; RequestAnimationFrame]).
Proof.
  intros T c1 c2 r. rewrite two_finger_move.
  destruct (pinchMoves_anchors ms c1) as [Ed Ev]. fold c2 in Ed, Ev.
  unfold pinchArmed. rewrite Ed, Ev. simpl. now rewrite T.
Qed.

(** The division of [handleTouchMove] by the starting separation only
    runs on a divisor that is neither zero nor [NaN]. *)
Lemma pinchArmed_divisor (c : t) (d v : float) :
  pinchArmed c = Some (d, v) -> is_zero d = false /\ is_nan d = false.
Proof.
  unfold pinchArmed, JS.truthy.
  destruct (pinchStartDist c) as [d'|]; [|discriminate].
  destruct (pinchStartViewDist c) as [v'|]; [|discriminate].
  destruct (is_nan d') eqn:N, (is_zero d') eqn:Z; simpl; try discriminate.
  intros [= <- <-]. now split.
Qed.

(** Two touches on the same point are zero apart, given that
    [Math.hypot(0, 0)] is [0] as ECMA-262 requires. *)
Lemma same_point_separation (x y : float) :
  is_finite x = true -> is_finite y = true -> hypot 0 0 = 0 ->
  is_zero (separation (touchAt x y) (touchAt x y)) = true.
Proof.
  intros Fx Fy Z. unfold separation. simpl.
  now rewrite !Binary64.sub_diag, Z by assumption.
Qed.

(** C10. When a two-finger gesture starts with separation zero (both
    touches on the same point, see [same_point_separation]), the guard of
    the pinch branch fails: every later two-finger [touchmove] leaves the
    whole camera as it is, [viewDist] included, and asks for no frame. The
    division by the starting separation is reached only with a non-zero
    divisor. *)
Theorem coincident_pinch_is_ignored (c : t) (t1 t2 : Touch.t)
    (ms : list (Touch.t * Touch.t)) :
  is_zero (separation t1 t2) = true ->
  let c1 := fst (handleTouchStart c (twoFingers t1 t2)) in
  pinchArmed c1 = None /\
  (forall u1 u2, handleTouchMove c1 (twoFingers u1 u2) = (c1, [PreventDefault])) /\
  pinchMoves c1 ms = c1 /\
  viewDist (pinchMoves c1 ms) = viewDist c /\
  (forall c' d v, pinchArmed c' = Some (d, v) -> is_zero d = false).
Proof.
  intros Z c1.
  assert (A : pinchArmed c1 = None).
  { unfold pinchArmed, JS.truthy. simpl. now rewrite Z, orb_true_r. }
  assert (M : forall u1 u2, handleTouchMove c1 (twoFingers u1 u2) = (c1, [PreventDefault])).
  { intros u1 u2. now rewrite two_finger_move, A. }
  assert (P : pinchMoves c1 ms = c1).
  { unfold pinchMoves. induction ms as [|[u1 u2] ms IH]; [reflexivity|].
    simpl. now rewrite M. }
  repeat split; try assumption.
  - now rewrite P.
  - intros c' d v E. now destruct (pinchArmed_divisor c' d v E).
Qed.

(** What [renderImmediately] does to a camera, whatever came before. *)
Lemma renderImmediately_clamps (c : t) :
  let c' := fst (renderImmediately c) in
  clamped c c' /\
  wrapped (yRot c) (yRot c') /\
  maxViewDist c' = maxViewDist c /\
  snd (renderImmediately c) = viewOf c'.
Proof.
  unfold renderImmediately, viewOf, clamped. simpl.
  destruct (center c) as [[c0 c1] c2] eqn:C. simpl.
  split; [split|split; [apply Remainder.rem_two_pi|split]]; try reflexivity.
  - destruct (is_nan (xRot c)) eqn:N.
    + unfold JS.isNaN.
      now rewrite Binary64.max_nan, Binary64.min_nan, N, orb_true_r.
    + now apply Binary64.clamp_between.
  - destruct (is_nan (viewDist c)) eqn:Nv; simpl.
    { unfold JS.isNaN. now rewrite Binary64.min_nan, Binary64.max_nan, Nv. }
    destruct (is_nan (maxViewDist c)) eqn:Nm.
    { unfold JS.isNaN. now rewrite Binary64.min_nan, Nm, orb_true_r. }
    now apply Binary64.clamp_min_max.
  - now rewrite C.
Qed.

(** A render repeated with no event in between changes nothing: the
    clamps and the wrap of [renderImmediately] are idempotent, so the
    second run leaves the camera as the first left it and hands [onRender]
    the same view matrix. This holds for every camera, [NaN] and infinite
    values included. *)
Theorem renderImmediately_idempotent (c : t) :
  renderImmediately (renderImmediately c).1 = renderImmediately c.
Proof.
  assert (D : exists md ed, Prim2SF (JS.PI * 2) = S754_finite false md ed)
    by (vm_compute; eauto).
  destruct D as (md & ed & Ed).
  pose proof (Binary64.clamp_angle_idem (xRot c)) as X. cbv zeta in X.
  pose proof (Binary64.clamp_distance_idem (viewDist c) (maxViewDist c)) as V. cbv zeta in V.
  pose proof (Remainder.rem_idem (yRot c) _ _ _ _ Ed) as Y.
  unfold renderImmediately. simpl. destruct (center c) as [[c0 c1] c2] eqn:C.
  simpl. rewrite C. unfold set_viewDist, set_xRot, set_yRot. simpl.
  simpl in X, V, Y. now rewrite X, V, Y.
Qed.

(** What [touchend] leaves behind. With one finger still down at
    [(x, y)], the next one-finger [touchmove] rotates by a hundredth of
    the movement away from that finger, and a two-finger [touchmove]
    does nothing, for the pinch is disarmed. With no finger left, mouse
    moves and touch moves with one or two fingers all leave the camera as
    it is and ask for no frame. In both cases [touchend] itself keeps the
    angles and the distance. *)
Theorem touchend_hands_over (c : t) (x y x' y' : float) (u1 u2 : Touch.t)
    (m : MouseEvent.t) :
  let c1 := (handleTouchEnd c (oneFinger (touchAt x y))).1 in
  let c0 := (handleTouchEnd c {| TouchEvent.touches := [] |}).1 in
  (xRot c1 = xRot c /\ yRot c1 = yRot c /\ viewDist c1 = viewDist c) /\
  handleTouchMove c1 (oneFinger (touchAt x' y'))
    = (dragged c1 x y x' y', [PreventDefault; RequestAnimationFrame]) /\
  handleTouchMove c1 (twoFingers u1 u2) = (c1, [PreventDefault]) /\
  (xRot c0 = xRot c /\ yRot c0 = yRot c /\ viewDist c0 = viewDist c) /\
  handleMouseMove c0 m = (c0, []) /\
  handleTouchMove c0 (oneFinger (touchAt x' y')) = (c0, [PreventDefault]) /\
  handleTouchMove c0 (twoFingers u1 u2) = (c0, [PreventDefault]).
Proof. repeat split. Qed.

(** Touch events with three fingers or more fall through every branch of
    the three touch handlers: the camera and the state of the gesture stay
    as they are and no frame is asked for ([touchstart] and [touchmove]
    still prevent the default action). *)
Theorem extra_fingers_change_nothing (c : t) (ts : list Touch.t) :
  3 <= length ts ->
  let evt := {| TouchEvent.touches := ts |} in
  handleTouchStart c evt = (c, [PreventDefault]) /\
  handleTouchMove c evt = (c, [PreventDefault]) /\
  handleTouchEnd c evt = (c, []).
Proof.
  intros L. destruct ts as [|t1 [|t2 [|t3 ts]]]; simpl in L; try lia.
  unfold handleTouchStart, handleTouchMove, handleTouchEnd. simpl.
  repeat split.
Qed.

(** Starting one gesture ends the other. After a two-finger
    [touchstart] a drag is over: mouse moves and one-finger touch moves
    change nothing. After a one-finger [touchstart] a pinch is disarmed:
    two-finger touch moves change nothing. *)
Theorem gestures_are_exclusive (c : t) (t t1 t2 u u1 u2 : Touch.t) (m : MouseEvent.t) :
  let p := (handleTouchStart c (twoFingers t1 t2)).1 in
  let d := (handleTouchStart c (oneFinger t)).1 in
  handleMouseMove p m = (p, []) /\
  handleTouchMove p (oneFinger u) = (p, [PreventDefault]) /\
  handleTouchMove d (twoFingers u1 u2) = (d, [PreventDefault]).
Proof. repeat split. Qed.

End Camera.

(** ** The page: listeners, frames and references *)

Section Page.
Context `{Math}.

(** *** Shapes: which fields an operation may touch *)

Lemma removeAll_shape (ls : list Listener) (w : World) :
  foldl (fun w l => removeEventListener l w) w ls
    = set_listeners (listeners (foldl (fun w l => removeEventListener l w) w ls)) w.
Proof.
  revert w. induction ls as [|l ls IH]; intros w; simpl; [now destruct w|].
  rewrite IH at 1. reflexivity.
Qed.

Lemma addAll_shape (ls : list Listener) (w : World) :
  foldl (fun w l => addEventListener l w) w ls
    = set_listeners (listeners (foldl (fun w l => addEventListener l w) w ls)) w.
Proof.
  revert w. induction ls as [|l ls IH]; intros w; simpl; [now destruct w|].
  rewrite IH at 1. unfold addEventListener. now destruct (bool_decide _).
Qed.

Lemma elem_of_removeAll (ls : list Listener) (w : World) (l' : Listener) :
  l' ∈ listeners (foldl (fun w l => removeEventListener l w) w ls)
  <-> l' ∈ listeners w /\ l' ∉ ls.
Proof.
  revert w. induction ls as [|l ls IH]; intros w; simpl.
  - rewrite elem_of_nil. tauto.
  - rewrite IH. simpl. rewrite list_elem_of_filter, not_elem_of_cons. tauto.
Qed.

Lemma elem_of_addAll (ls : list Listener) (w : World) (l' : Listener) :
  l' ∈ listeners (foldl (fun w l => addEventListener l w) w ls)
  <-> l' ∈ listeners w \/ l' ∈ ls.
Proof.
  revert w. induction ls as [|l ls IH]; intros w; simpl.
  - rewrite elem_of_nil. tauto.
  - rewrite IH, elem_of_cons. unfold addEventListener.
    destruct (bool_decide_reflect (l ∈ listeners w)) as [I|I]; simpl.
    + split; [tauto|]. intros [?|[->|?]]; tauto.
    + rewrite elem_of_app, list_elem_of_singleton. tauto.
Qed.

Lemma elem_of_destroy (this0 : nat) (w : World) (l : Listener) :
  l ∈ listeners (destroy this0 w) <-> l ∈ listeners w /\ l ∉ listenersOf this0.
Proof. apply elem_of_removeAll. Qed.

Lemma destroy_shape (this0 : nat) (w : World) :
  destroy this0 w = set_listeners (listeners (destroy this0 w)) w.
Proof. apply removeAll_shape. Qed.

Lemma this_listenersOf (i : nat) (l : Listener) : l ∈ listenersOf i -> this l = i.
Proof.
  unfold listenersOf. rewrite !elem_of_cons, elem_of_nil.
  intros [->|[->|[->|[->|[->|[->|[->|[]]]]]]]]; reflexivity.
Qed.

Lemma performAll_shape (effs : list Effect) (i : nat) (w : World) :
  foldl (perform i) w effs
    = set_animationFrames (animationFrames (foldl (perform i) w effs)) w.
Proof.
  revert w. induction effs as [|eff effs IH]; intros w; simpl; [now destruct w|].
  rewrite IH at 1. now destruct eff.
Qed.

Lemma invoke_shape (e : Event) (w : World) (l : Listener) :
  invoke e w l
    = set_animationFrames (animationFrames (invoke e w l))
        (set_objects (objects (invoke e w l)) w).
Proof.
  unfold invoke. destruct (objects w !! this l); [|now destruct w].
  destruct (call _ _ _) as [c' effs]. now rewrite performAll_shape.
Qed.

Lemma invokeAll_shape (e : Event) (ls : list Listener) (w : World) :
  foldl (invoke e) w ls
    = set_animationFrames (animationFrames (foldl (invoke e) w ls))
        (set_objects (objects (foldl (invoke e) w ls)) w).
Proof.
  revert w. induction ls as [|l ls IH]; intros w; simpl; [now destruct w|].
  pose proof (IH (invoke e w l)) as E.
  set (X := foldl (invoke e) (invoke e w l) ls) in *.
  rewrite E. now rewrite (invoke_shape e w l).
Qed.

Lemma dispatchEvent_shape (tgt : EventTarget) (e : Event) (w : World) :
  dispatchEvent tgt e w
    = set_animationFrames (animationFrames (dispatchEvent tgt e w))
        (set_objects (objects (dispatchEvent tgt e w)) w).
Proof. apply invokeAll_shape. Qed.

(** *** A listener only writes to the instance it belongs to *)

Lemma invoke_lookup_ne (e : Event) (w : World) (l : Listener) (i : nat) :
  this l <> i -> objects (invoke e w l) !! i = objects w !! i.
Proof.
  intros N. unfold invoke. destruct (objects w !! this l); [|reflexivity].
  destruct (call _ _ _) as [c' effs]. rewrite performAll_shape. simpl.
  now apply lookup_insert_ne.
Qed.

Lemma invokeAll_lookup_ne (e : Event) (ls : list Listener) (w : World) (i : nat) :
  (forall l, l ∈ ls -> this l <> i) ->
  objects (foldl (invoke e) w ls) !! i = objects w !! i.
Proof.
  revert w. induction ls as [|l ls IH]; intros w N; simpl; [reflexivity|].
  rewrite IH by (intros l' I; apply N; now right).
  apply invoke_lookup_ne, N. now left.
Qed.

Lemma elem_of_listening (tgt : EventTarget) (e : Event) (w : World) (l : Listener) :
  l ∈ path tgt ≫= (fun t => listening t e w) -> l ∈ listeners w.
Proof.
  rewrite list_elem_of_bind. intros (t & I & _).
  unfold listening in I. now apply list_elem_of_filter in I as [_ I].
Qed.

Lemma dispatchEvent_lookup_ne (tgt : EventTarget) (e : Event) (w : World) (i : nat) :
  (forall l, l ∈ listeners w -> this l <> i) ->
  objects (dispatchEvent tgt e w) !! i = objects w !! i.
Proof.
  intros N. apply invokeAll_lookup_ne.
  intros l I. eapply N, elem_of_listening, I.
Qed.

Lemma dispatchAll_lookup_ne (events : list (EventTarget * Event)) (w : World) (i : nat) :
  (forall l, l ∈ listeners w -> this l <> i) ->
  objects (dispatchAll events w) !! i = objects w !! i /\
  listeners (dispatchAll events w) = listeners w.
Proof.
  revert w. unfold dispatchAll.
  induction events as [|[tgt e] events IH]; intros w N; simpl; [now split|].
  assert (L : listeners (dispatchEvent tgt e w) = listeners w)
    by now rewrite dispatchEvent_shape.
  destruct (IH (dispatchEvent tgt e w)) as [-> ->]; [now rewrite L|].
  split; [now apply dispatchEvent_lookup_ne | exact L].
Qed.

(** After [destroy], no listener of the instance is left, provided the
    page only ever held listeners attached by constructors. *)
Lemma destroy_detaches (this0 : nat) (w : World) :
  attachedByConstructors w ->
  forall l, l ∈ listeners (destroy this0 w) -> this l <> this0.
Proof.
  intros A l I E. apply elem_of_destroy in I as [I N].
  apply N. rewrite <- E. now apply A.
Qed.

(** *** The invariant of a mounted component *)

Lemma wellFormed_mounted cv ct ready res size o :
  wellFormed (mounted cv ct ready res size o).
Proof.
  repeat split; simpl; try discriminate;
    solve [ intros l I; now apply elem_of_nil in I
          | intros i c E; now rewrite lookup_empty in E ].
Qed.

(** The invariant reads six fields only. *)
Lemma wellFormed_same (w w' : World) :
  listeners w' = listeners w -> renderer w' = renderer w ->
  interactiveCanvas w' = interactiveCanvas w -> objects w' = objects w ->
  nextObject w' = nextObject w -> structure w' = structure w ->
  wellFormed w -> wellFormed w'.
Proof.
  unfold wellFormed, attachedByConstructors, allocated, builtForStructure.
  intros -> -> -> -> -> ->. trivial.
Qed.

Lemma call_maxViewDist (h : Handler) (e : Event) (c : InteractiveCanvas.t) :
  InteractiveCanvas.maxViewDist (call h e c).1 = InteractiveCanvas.maxViewDist c.
Proof.
  destruct h, e; simpl; try reflexivity;
    unfold InteractiveCanvas.handleMouseDown, InteractiveCanvas.handleMouseMove,
      InteractiveCanvas.handleTouchStart, InteractiveCanvas.handleTouchMove,
      InteractiveCanvas.handleTouchEnd;
    repeat case_match; reflexivity.
Qed.

(** An instance found after a listener ran was there before, with the
    same distance bound. *)
Lemma invoke_objects (e : Event) (w : World) (l : Listener) (i : nat)
    (c' : InteractiveCanvas.t) :
  objects (invoke e w l) !! i = Some c' ->
  exists c, objects w !! i = Some c /\
    InteractiveCanvas.maxViewDist c' = InteractiveCanvas.maxViewDist c.
Proof.
  unfold invoke. destruct (objects w !! this l) as [c0|] eqn:E0; [|eauto].
  pose proof (call_maxViewDist (callback l) e c0) as M.
  destruct (call _ _ _) as [c1 effs]. rewrite performAll_shape. simpl in *.
  destruct (decide (this l = i)) as [<-|N].
  - rewrite lookup_insert_eq. intros [= <-]. eauto.
  - rewrite lookup_insert_ne by assumption. eauto.
Qed.

Lemma invokeAll_objects (e : Event) (ls : list Listener) (w : World) (i : nat)
    (c' : InteractiveCanvas.t) :
  objects (foldl (invoke e) w ls) !! i = Some c' ->
  exists c, objects w !! i = Some c /\
    InteractiveCanvas.maxViewDist c' = InteractiveCanvas.maxViewDist c.
Proof.
  revert w. induction ls as [|l ls IH]; intros w E; simpl in *; [eauto|].
  apply IH in E as (c1 & E1 & M1).
  apply invoke_objects in E1 as (c & E & M). exists c. split; congruence.
Qed.

Lemma wellFormed_dispatchEvent (tgt : EventTarget) (e : Event) (w : World) :
  wellFormed w -> wellFormed (dispatchEvent tgt e w).
Proof.
  intros (A & (Ar & Ai & Al & Ao) & B).
  assert (O : forall i c', objects (dispatchEvent tgt e w) !! i = Some c' ->
    exists c, objects w !! i = Some c /\
      InteractiveCanvas.maxViewDist c' = InteractiveCanvas.maxViewDist c)
    by (intros i c'; apply invokeAll_objects).
  rewrite dispatchEvent_shape. repeat split; simpl; try assumption.
  - intros i c' E. apply O in E as (c & E & _). eauto.
  - intros i c' E. apply O in E as (c & E & ->). eauto.
Qed.

Lemma onRender_shape (view : mat4) (w : World) :
  onRender view w = set_gl (gl (onRender view w)) w.
Proof.
  unfold onRender. destruct w; simpl. repeat case_match; reflexivity.
Qed.

(** *** The module-level [redraw] *)

Lemma redraw_idle (w : World) : canDraw w = false -> redraw w = w.
Proof.
  unfold canDraw, redraw. destruct (isReady w); simpl; [|reflexivity].
  destruct (resources w), (canvas w) as [cv|]; try reflexivity.
  now intros ->.
Qed.

Lemma NoDup_listenersOf (i : nat) : NoDup (listenersOf i).
Proof.
  unfold listenersOf.
  repeat (apply NoDup_cons; split;
          [rewrite ?not_elem_of_cons, elem_of_nil; repeat split; try discriminate; tauto|]).
  apply NoDup_nil_2.
Qed.

Lemma addAll_fresh (ls : list Listener) (w : World) :
  NoDup ls -> (forall l, l ∈ ls -> l ∉ listeners w) ->
  listeners (foldl (fun w l => addEventListener l w) w ls) = listeners w ++ ls.
Proof.
  revert w. induction ls as [|l ls IH]; intros w N D; simpl.
  - now rewrite app_nil_r.
  - apply NoDup_cons in N as [Nl N].
    assert (E : addEventListener l w = set_listeners (listeners w ++ [l]) w).
    { unfold addEventListener. rewrite bool_decide_eq_false_2; [reflexivity|].
      apply D. now left. }
    rewrite E, IH; [simpl; now rewrite <- app_assoc|assumption|].
    intros l' I. simpl. rewrite elem_of_app, list_elem_of_singleton.
    intros [J| ->]; [|contradiction]. apply (D l'); [now right|assumption].
Qed.

Lemma destroy_all (i : nat) (w : World) :
  listeners w = listenersOf i -> listeners (destroy i w) = [].
Proof.
  intros E. apply elem_of_nil_inv. intros l I.
  apply elem_of_destroy in I as [I N]. apply N. now rewrite <- E.
Qed.

Lemma construct_spec (size : float * float * float) (w : World) :
  let this0 := nextObject w in
  let w' := (construct size w).2 in
  (construct size w).1 = this0 /\
  w' = set_listeners (listeners w')
         (set_objects (<[this0 := InteractiveCanvas.new size]> (objects w))
            (set_nextObject (S this0) w)) /\
  (forall l, l ∈ listeners w' <-> l ∈ listeners w \/ l ∈ listenersOf this0) /\
  (listeners w = [] -> listeners w' = listenersOf this0).
Proof.
  unfold construct. cbn -[listenersOf]. split; [reflexivity|split; [|split]].
  - now rewrite addAll_shape at 1.
  - intros l. now rewrite elem_of_addAll.
  - intros E. rewrite addAll_fresh.
    + unfold set_objects, set_nextObject. cbn [listeners]. now rewrite E.
    + apply NoDup_listenersOf.
    + intros l _. unfold set_objects, set_nextObject. cbn [listeners].
      rewrite E. apply not_elem_of_nil.
Qed.

(** Past the guards, [redraw] detaches the current instance, and allocates
    a renderer and an instance, both new. *)
Lemma redraw_rebuilds (w : World) :
  canDraw w = true ->
  let r := nextObject w in
  let w' := redraw w in
  renderer w' = Some r /\
  interactiveCanvas w' = Some (S r) /\
  nextObject w' = S (S r) /\
  objects w' = <[S r := InteractiveCanvas.new (structure w)]> (objects w) /\
  animationFrames w' = animationFrames w ++ [RenderImmediately (S r)] /\
  (forall l, l ∈ listeners w' <->
     (l ∈ listeners w /\
      forall i, interactiveCanvas w = Some i -> l ∉ listenersOf i) \/
     l ∈ listenersOf (S r)) /\
  structure w' = structure w /\ canvas w' = canvas w /\
  container w' = container w /\ options w' = options w /\
  isReady w' = isReady w /\ resources w' = resources w /\ gl w' = gl w.
Proof.
  unfold canDraw, redraw.
  destruct (isReady w) eqn:RD; cbn [andb negb]; [|discriminate].
  destruct (resources w) eqn:RS; [|discriminate].
  destruct (canvas w) as [cv|] eqn:C; [|discriminate].
  intros ->. cbn [negb].
  set (w1 := match interactiveCanvas w with
             | Some i => set_interactiveCanvas None (destroy i w)
             | None => w end).
  set (w2 := match renderer w1 with
             | Some _ => set_renderer None w1
             | None => w1 end).
  assert (E1 : w1 = set_interactiveCanvas (interactiveCanvas w1)
                      (set_listeners (listeners w1) w)).
  { subst w1. destruct (interactiveCanvas w) as [i|] eqn:I.
    - now rewrite (destroy_shape i w).
    - destruct w; simpl in *. now rewrite I. }
  assert (L1 : forall l, l ∈ listeners w1 <->
            l ∈ listeners w /\
            forall i, interactiveCanvas w = Some i -> l ∉ listenersOf i).
  { intros l. subst w1. destruct (interactiveCanvas w) as [i|].
    - cbn -[destroy listenersOf]. rewrite elem_of_destroy.
      split; intros [? N]; (split; [assumption|]).
      + now intros ? [= <-].
      + now apply N.
    - split; [intros ?; split; [assumption|discriminate] | now intros [? _]]. }
  assert (E2 : w2 = set_renderer (renderer w2) w1)
    by (subst w2; destruct (renderer w1) eqn:R; [reflexivity|];
        destruct w1; simpl in *; now rewrite R).
  destruct (construct_spec (structure w2)
              (set_renderer (Some (nextObject w2)) (set_nextObject (S (nextObject w2)) w2)))
    as (Ct & Cw & Cl & _).
  destruct (construct _ _) as [this0 w4]. cbn [fst snd] in Ct, Cw, Cl.
  cbn -[listenersOf] in Ct, Cw, Cl. subst this0.
  assert (N2 : nextObject w2 = nextObject w) by (rewrite E2, E1; reflexivity).
  assert (S2 : structure w2 = structure w) by (rewrite E2, E1; reflexivity).
  assert (O2 : objects w2 = objects w) by (rewrite E2, E1; reflexivity).
  assert (L2 : listeners w2 = listeners w1) by (rewrite E2; reflexivity).
  rewrite Cw. cbn -[listenersOf]. rewrite N2, S2, O2.
  repeat split; try (rewrite E2, E1; cbn; first [reflexivity | assumption]).
  - rewrite Cl, L2, L1, N2. tauto.
  - rewrite Cl, L2, L1, N2. tauto.
Qed.

(** When the page holds the listeners of the current instance only, it
    holds those of the new instance only after [redraw]. *)
Lemma redraw_listeners (w : World) :
  canDraw w = true ->
  listeners w = match interactiveCanvas w with
                | Some i => listenersOf i
                | None => []
                end ->
  listeners (redraw w) = listenersOf (S (nextObject w)).
Proof.
  unfold canDraw, redraw.
  destruct (isReady w) eqn:RD; cbn [andb negb]; [|discriminate].
  destruct (resources w) eqn:RS; [|discriminate].
  destruct (canvas w) as [cv|] eqn:C; [|discriminate].
  intros -> L. cbn [negb].
  set (w1 := match interactiveCanvas w with
             | Some i => set_interactiveCanvas None (destroy i w)
             | None => w end).
  set (w2 := match renderer w1 with
             | Some _ => set_renderer None w1
             | None => w1 end).
  assert (L1 : listeners w1 = []).
  { subst w1. destruct (interactiveCanvas w) as [i|]; [|assumption].
    unfold set_interactiveCanvas. cbn [listeners]. now apply destroy_all. }
  assert (N1 : nextObject w1 = nextObject w).
  { subst w1. destruct (interactiveCanvas w) as [i|]; [|reflexivity].
    now rewrite destroy_shape. }
  assert (L2 : listeners w2 = []) by (subst w2; now destruct (renderer w1)).
  assert (N2 : nextObject w2 = nextObject w) by (subst w2; now destruct (renderer w1)).
  destruct (construct_spec (structure w2)
              (set_renderer (Some (nextObject w2)) (set_nextObject (S (nextObject w2)) w2)))
    as (Ct & _ & _ & Cl).
  destruct (construct _ _) as [this0 w4]. cbn [fst snd] in Ct, Cl.
  unfold set_renderer, set_nextObject in Cl. cbn [listeners nextObject] in Cl.
  unfold redrawInstance, requestAnimationFrame, set_animationFrames,
    set_interactiveCanvas. cbn [listeners].
  rewrite Cl, N2 by assumption. reflexivity.
Qed.

Lemma wellFormed_redraw (w : World) : wellFormed w -> wellFormed (redraw w).
Proof.
  intros W. destruct (canDraw w) eqn:G; [|now rewrite redraw_idle].
  destruct W as (A & (Ar & Ai & Al & Ao) & B).
  destruct (redraw_rebuilds w G) as (Er & Ei & En & Eo & _ & El & Es & _).
  repeat split.
  - intros l I. apply El in I as [[I _]|I]; [now apply A|].
    now rewrite (this_listenersOf _ _ I).
  - rewrite Er, En. intros ? [= <-]. lia.
  - rewrite Ei, En. intros ? [= <-]. lia.
  - rewrite En. intros l I. apply El in I as [[I _]|I].
    + apply Al in I. lia.
    + rewrite (this_listenersOf _ _ I). lia.
  - rewrite Eo, En. intros i c. rewrite lookup_insert.
    case_decide; [intros _; lia|]. intros E. apply Ao in E. lia.
  - intros i c. rewrite Eo, Es, lookup_insert.
    case_decide; [now intros [= <-]|]. apply B.
Qed.

Lemma renderImmediately_maxViewDist (c : InteractiveCanvas.t) :
  InteractiveCanvas.maxViewDist (InteractiveCanvas.renderImmediately c).1
    = InteractiveCanvas.maxViewDist c.
Proof.
  unfold InteractiveCanvas.renderImmediately. simpl.
  now destruct (InteractiveCanvas.center c) as [[? ?] ?].
Qed.

Lemma wellFormed_runFrameCallback (w : World) (cb : FrameCallback) :
  wellFormed w -> wellFormed (runFrameCallback w cb).
Proof.
  intros W. destruct cb as [|i]; simpl; [now apply wellFormed_redraw|].
  destruct (objects w !! i) as [c|] eqn:E; [|assumption].
  pose proof (renderImmediately_maxViewDist c) as M.
  destruct (InteractiveCanvas.renderImmediately c) as [c' view].
  rewrite onRender_shape. simpl in M.
  destruct W as (A & (Ar & Ai & Al & Ao) & B).
  repeat split; simpl; try assumption.
  - intros j d. rewrite lookup_insert. case_decide; [subst; eauto|apply Ao].
  - unfold builtForStructure. simpl. intros j d. rewrite lookup_insert.
    case_decide; [intros [= <-]; subst; rewrite M; eauto|apply B].
Qed.

Lemma wellFormed_frames (cbs : list FrameCallback) (w : World) :
  wellFormed w -> wellFormed (foldl runFrameCallback w cbs).
Proof.
  revert w. induction cbs as [|cb cbs IH]; intros w W; simpl; [assumption|].
  now apply IH, wellFormed_runFrameCallback.
Qed.

Lemma wellFormed_step (w : World) (i : Input) :
  wellFormed w -> wellFormed (step w i).
Proof.
  intros W. destruct i as [ct|tgt e|o|]; simpl.
  - unfold resizeObserverCallback. simpl.
    destruct (canvas w); revert W; now apply wellFormed_same.
  - now apply wellFormed_dispatchEvent.
  - case_bool_decide; [assumption|]. unfold optionsWatcher. simpl.
    destruct (interactiveCanvas w); revert W; now apply wellFormed_same.
  - unfold animationFrame. apply wellFormed_frames.
    revert W. now apply wellFormed_same.
Qed.

(** Every state a mounted component reaches satisfies the invariant. *)
Lemma wellFormed_run cv ct ready res size o (inputs : list Input) :
  wellFormed (run (mounted cv ct ready res size o) inputs).
Proof.
  unfold run. generalize (wellFormed_mounted cv ct ready res size o).
  generalize (mounted cv ct ready res size o).
  induction inputs as [|i inputs IH]; intros w W; simpl; [assumption|].
  now apply IH, wellFormed_step.
Qed.

(** *** The environment of a run *)

Lemma sameEnvironment_same cv ready res size (w w' : World) :
  structure w' = structure w -> isReady w' = isReady w ->
  resources w' = resources w -> canvas w' = canvas w ->
  sameEnvironment cv ready res size w -> sameEnvironment cv ready res size w'.
Proof. unfold sameEnvironment. now intros -> -> -> ->. Qed.

Lemma sameEnvironment_runFrameCallback cv ready res size (w : World) cb :
  sameEnvironment cv ready res size w ->
  sameEnvironment cv ready res size (runFrameCallback w cb).
Proof.
  destruct cb as [|i]; simpl.
  - destruct (canDraw w) eqn:G; [|now rewrite redraw_idle].
    destruct (redraw_rebuilds w G) as (_ & _ & _ & _ & _ & _ & ? & ? & _ & _ & ? & ? & _).
    now apply sameEnvironment_same.
  - destruct (objects w !! i); [|trivial].
    destruct (InteractiveCanvas.renderImmediately _) as [c' view].
    rewrite onRender_shape. now apply sameEnvironment_same.
Qed.

Lemma sameEnvironment_step cv ready res size (w : World) (i : Input) :
  sameEnvironment cv ready res size w ->
  sameEnvironment cv ready res size (step w i).
Proof.
  intros E. destruct i as [ct|tgt e|o|]; simpl.
  - destruct E as (? & ? & ? & cv' & C & ?).
    unfold resizeObserverCallback. simpl. rewrite C.
    repeat split; try assumption. now eexists.
  - rewrite dispatchEvent_shape. revert E. now apply sameEnvironment_same.
  - case_bool_decide; [assumption|]. unfold optionsWatcher. simpl.
    destruct (interactiveCanvas w); revert E; now apply sameEnvironment_same.
  - unfold animationFrame.
    assert (E0 : sameEnvironment cv ready res size (set_animationFrames [] w))
      by (revert E; now apply sameEnvironment_same).
    revert E0. generalize (set_animationFrames [] w).
    induction (animationFrames w) as [|cb cbs IH]; intros w0 E0; simpl; [assumption|].
    now apply IH, sameEnvironment_runFrameCallback.
Qed.

Lemma sameEnvironment_run cv ct ready res size o (inputs : list Input) :
  sameEnvironment cv ready res size (run (mounted cv ct ready res size o) inputs).
Proof.
  unfold run.
  assert (E : sameEnvironment cv ready res size (mounted cv ct ready res size o))
    by (repeat split; now eexists).
  revert E. generalize (mounted cv ct ready res size o).
  induction inputs as [|i inputs IH]; intros w E; simpl; [assumption|].
  now apply IH, sameEnvironment_step.
Qed.

Lemma canDraw_run cv ct ready res size o (inputs : list Input) :
  canDraw (run (mounted cv ct ready res size o) inputs)
    = ready && bool_decide (is_Some res) && webgl cv.
Proof.
  destruct (sameEnvironment_run cv ct ready res size o inputs)
    as (_ & R & S & cv' & C & G).
  unfold canDraw. rewrite R, S, C, G.
  destruct ready, res, (webgl cv); reflexivity.
Qed.

(** *** At most one live controller *)

Lemma oneLiveController_redraw (w : World) :
  oneLiveController w -> oneLiveController (redraw w).
Proof.
  intros (L & O & R). destruct (canDraw w) eqn:G;
    [|rewrite redraw_idle by assumption; exact (conj L (conj O R))].
  destruct (redraw_rebuilds w G) as (Er & Ei & _ & Eo & _ & El & _).
  split; [|split].
  - rewrite Ei. now apply redraw_listeners.
  - rewrite Ei, Eo. intros i [= <-]. rewrite lookup_insert_eq. eauto.
  - rewrite Ei, Er. split; eauto.
Qed.

Lemma invoke_keeps (e : Event) (w : World) (l : Listener) (i : nat) :
  is_Some (objects w !! i) -> is_Some (objects (invoke e w l) !! i).
Proof.
  intros I. unfold invoke. destruct (objects w !! this l) as [c0|]; [|assumption].
  destruct (call _ _ _) as [c1 effs]. rewrite performAll_shape. simpl.
  rewrite lookup_insert. case_decide; eauto.
Qed.

Lemma invokeAll_keeps (e : Event) (ls : list Listener) (w : World) (i : nat) :
  is_Some (objects w !! i) -> is_Some (objects (foldl (invoke e) w ls) !! i).
Proof.
  revert w. induction ls as [|l ls IH]; intros w I; simpl; [assumption|].
  now apply IH, invoke_keeps.
Qed.

Lemma oneLiveController_dispatchEvent (tgt : EventTarget) (e : Event) (w : World) :
  oneLiveController w -> oneLiveController (dispatchEvent tgt e w).
Proof.
  intros (L & O & R).
  assert (K : forall i, is_Some (objects w !! i) ->
                        is_Some (objects (dispatchEvent tgt e w) !! i))
    by (intros i; apply invokeAll_keeps).
  rewrite dispatchEvent_shape. split; [|split]; simpl; try assumption.
  intros i E. now apply K, O.
Qed.

Lemma oneLiveController_same (w w' : World) :
  listeners w' = listeners w -> renderer w' = renderer w ->
  interactiveCanvas w' = interactiveCanvas w -> objects w' = objects w ->
  oneLiveController w -> oneLiveController w'.
Proof. unfold oneLiveController. now intros -> -> -> ->. Qed.

Lemma oneLiveController_runFrameCallback (w : World) (cb : FrameCallback) :
  oneLiveController w -> oneLiveController (runFrameCallback w cb).
Proof.
  intros W. destruct cb as [|i]; simpl; [now apply oneLiveController_redraw|].
  destruct (objects w !! i) as [c|] eqn:E; [|assumption].
  destruct (InteractiveCanvas.renderImmediately c) as [c' view].
  rewrite onRender_shape. destruct W as (L & O & R).
  split; [|split]; simpl; try assumption.
  intros j J. rewrite lookup_insert. case_decide; eauto.
Qed.

Lemma oneLiveController_step (w : World) (i : Input) :
  oneLiveController w -> oneLiveController (step w i).
Proof.
  intros W. destruct i as [ct|tgt e|o|]; simpl.
  - unfold resizeObserverCallback. simpl.
    destruct (canvas w); revert W; now apply oneLiveController_same.
  - now apply oneLiveController_dispatchEvent.
  - case_bool_decide; [assumption|]. unfold optionsWatcher. simpl.
    destruct (interactiveCanvas w); revert W; now apply oneLiveController_same.
  - unfold animationFrame.
    assert (W0 : oneLiveController (set_animationFrames [] w))
      by (revert W; now apply oneLiveController_same).
    revert W0. generalize (set_animationFrames [] w).
    induction (animationFrames w) as [|cb cbs IH]; intros w0 W0; simpl; [assumption|].
    now apply IH, oneLiveController_runFrameCallback.
Qed.

Lemma oneLiveController_run cv ct ready res size o (inputs : list Input) :
  oneLiveController (run (mounted cv ct ready res size o) inputs).
Proof.
  unfold run.
  assert (W : oneLiveController (mounted cv ct ready res size o)).
  { split; [reflexivity|split]; simpl; [discriminate|].
    split; intros [? [=]]. }
  revert W. generalize (mounted cv ct ready res size o).
  induction inputs as [|i inputs IH]; intros w W; simpl; [assumption|].
  now apply IH, oneLiveController_step.
Qed.

Import InteractiveCanvas.

(** *** One event, one handler *)

Lemma set_objects_id (w : World) : set_objects (objects w) w = w.
Proof. now destruct w. Qed.

Lemma listening_current (tgt : EventTarget) (e : Event) (w : World) (i : nat) :
  listeners w = listenersOf i ->
  path tgt ≫= (fun t => listening t e w)
    = if reaches tgt (typeOf e)
      then [ {| target := match typeOf e with
                          | mousemove | mouseup => OwnerDocument
                          | _ => CanvasElement
                          end;
                type := typeOf e; this := i; callback := handlerFor (typeOf e) |} ]
      else [].
Proof.
  intros L. unfold listening. rewrite L.
  destruct tgt, e; vm_compute; reflexivity.
Qed.

(** An event runs the one handler the constructor registered for its
    type, on the current instance, once. *)
Lemma dispatchEvent_current (tgt : EventTarget) (e : Event) (w : World) (i : nat)
    (c : InteractiveCanvas.t) :
  listeners w = listenersOf i -> objects w !! i = Some c ->
  dispatchEvent tgt e w
    = if reaches tgt (typeOf e)
      then foldl (perform i)
             (set_objects (<[i := (call (handlerFor (typeOf e)) e c).1]> (objects w)) w)
             (call (handlerFor (typeOf e)) e c).2
      else w.
Proof.
  intros L C. unfold dispatchEvent. rewrite (listening_current tgt e w i L).
  destruct (reaches tgt (typeOf e)); [|reflexivity].
  cbn [foldl]. unfold invoke. cbn [this callback]. rewrite C.
  now destruct (call _ _ _).
Qed.

Lemma dispatchEvent_none (tgt : EventTarget) (e : Event) (w : World) :
  listeners w = [] -> dispatchEvent tgt e w = w.
Proof.
  intros L. unfold dispatchEvent, listening. rewrite L. now destruct tgt.
Qed.

(** *** What a frame does *)

Lemma onRender_calls (view : mat4) (w : World) (cv : Canvas) (r : nat) :
  canvas w = Some cv -> renderer w = Some r ->
  onRender view w = set_gl (gl w ++ drawCalls cv r (options w) view) w.
Proof.
  intros C R. unfold onRender, drawCalls. destruct w as [? ? ? ? ? [[] []] ? ? ? ? ? ? ?];
    simpl in *; subst; simpl; rewrite <- ?app_assoc; reflexivity.
Qed.

Lemma render_shape (w : World) (j : nat) :
  runFrameCallback w (RenderImmediately j)
    = set_gl (gl (runFrameCallback w (RenderImmediately j)))
        (set_objects (objects (runFrameCallback w (RenderImmediately j))) w).
Proof.
  simpl. destruct (objects w !! j); [|now destruct w].
  destruct (InteractiveCanvas.renderImmediately _) as [c' view].
  now rewrite onRender_shape.
Qed.

Lemma render_lookup_ne (w : World) (i j : nat) :
  i <> j ->
  objects (runFrameCallback w (RenderImmediately j)) !! i = objects w !! i.
Proof.
  intros N. simpl. destruct (objects w !! j); [|reflexivity].
  destruct (InteractiveCanvas.renderImmediately _) as [c' view].
  rewrite onRender_shape. simpl. now apply lookup_insert_ne.
Qed.

(** What a callback leaves in the queue: a [redraw] that goes past its
    guards queues the first render of the new instance, a render queues
    nothing. *)
Lemma runFrameCallback_queue (w : World) (cb : FrameCallback) :
  exists q, animationFrames (runFrameCallback w cb) = animationFrames w ++ q /\
            forallb isRender q = true /\
            (isRender cb = true -> q = []).
Proof.
  destruct cb as [|j].
  - cbn [runFrameCallback]. destruct (canDraw w) eqn:G.
    + destruct (redraw_rebuilds w G) as (_ & _ & _ & _ & Q & _).
      eexists. split; [exact Q|]. split; [reflexivity|discriminate].
    + rewrite redraw_idle by assumption. exists []. now rewrite app_nil_r.
  - rewrite render_shape. exists []. now rewrite app_nil_r.
Qed.

Lemma frames_queue (cbs : list FrameCallback) (w : World) :
  exists q, animationFrames (foldl runFrameCallback w cbs) = animationFrames w ++ q /\
            forallb isRender q = true /\
            (forallb isRender cbs = true -> q = []).
Proof.
  revert w. induction cbs as [|cb cbs IH]; intros w; simpl.
  - exists []. now rewrite app_nil_r.
  - destruct (runFrameCallback_queue w cb) as (q1 & E1 & R1 & N1).
    destruct (IH (runFrameCallback w cb)) as (q2 & E2 & R2 & N2).
    exists (q1 ++ q2). rewrite E2, E1, app_assoc. split; [reflexivity|].
    rewrite forallb_app, R1, R2. split; [reflexivity|].
    rewrite andb_true_iff. intros [A B]. now rewrite N1, N2.
Qed.

Lemma animationFrame_idle (w : World) : animationFrames w = [] -> animationFrame w = w.
Proof. intros E. unfold animationFrame. rewrite E. destruct w; simpl in *. now subst. Qed.

(** A frame callback leaves the refs, the props and the resource store
    alone, and never hands out a reference twice. *)
Lemma runFrameCallback_keeps (w : World) (cb : FrameCallback) :
  let w' := runFrameCallback w cb in
  canvas w' = canvas w /\ container w' = container w /\ options w' = options w /\
  structure w' = structure w /\ isReady w' = isReady w /\ resources w' = resources w /\
  nextObject w <= nextObject w'.
Proof.
  destruct cb as [|j].
  - cbn [runFrameCallback]. destruct (canDraw w) eqn:G.
    + destruct (redraw_rebuilds w G)
        as (_ & _ & -> & _ & _ & _ & -> & -> & -> & -> & -> & -> & _).
      repeat split; lia.
    + rewrite redraw_idle by assumption. repeat split; lia.
  - cbv zeta. rewrite render_shape. simpl. repeat split; lia.
Qed.

Lemma frames_keep (cbs : list FrameCallback) (w : World) :
  let w' := foldl runFrameCallback w cbs in
  canvas w' = canvas w /\ container w' = container w /\ options w' = options w /\
  structure w' = structure w /\ isReady w' = isReady w /\ resources w' = resources w /\
  nextObject w <= nextObject w'.
Proof.
  revert w. induction cbs as [|cb cbs IH]; intros w; simpl; [repeat split; lia|].
  destruct (IH (runFrameCallback w cb)) as (-> & -> & -> & -> & -> & -> & L).
  destruct (runFrameCallback_keeps w cb) as (-> & -> & -> & -> & -> & -> & L').
  repeat split; lia.
Qed.

Lemma queuedAllocated_runFrameCallback (w : World) (cb : FrameCallback) :
  queuedAllocated w -> queuedAllocated (runFrameCallback w cb).
Proof.
  intros Q. destruct cb as [|j].
  - cbn [runFrameCallback]. destruct (canDraw w) eqn:G; [|now rewrite redraw_idle].
    destruct (redraw_rebuilds w G) as (_ & _ & N & _ & A & _).
    intros k. rewrite A, N, elem_of_app, list_elem_of_singleton.
    intros [I|[= ->]]; [apply Q in I|]; lia.
  - rewrite render_shape. exact Q.
Qed.

Lemma queuedAllocated_frames (cbs : list FrameCallback) (w : World) :
  queuedAllocated w -> queuedAllocated (foldl runFrameCallback w cbs).
Proof.
  revert w. induction cbs as [|cb cbs IH]; intros w Q; simpl; [assumption|].
  now apply IH, queuedAllocated_runFrameCallback.
Qed.

(** Renders leave everything alone but the cameras they clamp and the
    drawing they do. *)
Lemma renders_keep (cbs : list FrameCallback) (w : World) :
  forallb isRender cbs = true ->
  let w' := foldl runFrameCallback w cbs in
  renderer w' = renderer w /\ interactiveCanvas w' = interactiveCanvas w /\
  listeners w' = listeners w /\ animationFrames w' = animationFrames w /\
  (forall i, RenderImmediately i ∉ cbs -> objects w' !! i = objects w !! i).
Proof.
  revert w. induction cbs as [|cb cbs IH]; intros w R; simpl in *.
  - repeat split.
  - apply andb_true_iff in R as [R1 R].
    destruct cb as [|j]; [discriminate|].
    destruct (IH (runFrameCallback w (RenderImmediately j)) R)
      as (E1 & E2 & E3 & E4 & O).
    split; [|split; [|split; [|split]]].
    + now rewrite E1, render_shape.
    + now rewrite E2, render_shape.
    + now rewrite E3, render_shape.
    + now rewrite E4, render_shape.
    + intros i N. apply not_elem_of_cons in N as [N1 N].
      rewrite O by assumption. apply render_lookup_ne. congruence.
Qed.

(** A render of an instance, with the canvas bound and a renderer at hand. *)
Lemma render_current (w : World) (i r : nat) (c : t) (cv : Canvas) :
  canvas w = Some cv -> renderer w = Some r -> objects w !! i = Some c ->
  let c' := (renderImmediately c).1 in
  runFrameCallback w (RenderImmediately i)
    = set_gl (gl w ++ drawCalls cv r (options w) (viewOf c'))
        (set_objects (<[i := c']> (objects w)) w).
Proof.
  intros C R O c'. simpl. rewrite O.
  destruct (renderImmediately_clamps c) as (_ & _ & _ & V). fold c' in V.
  subst c'. destruct (renderImmediately c) as [c' view]. simpl in *. subst view.
  now rewrite (onRender_calls _ _ cv r).
Qed.

(** *** With the canvas ref unbound *)

Lemma dispatchAll_none (es : list (EventTarget * Event)) (w : World) :
  listeners w = [] -> dispatchAll es w = w.
Proof.
  intros L. unfold dispatchAll. induction es as [|[tgt e] es IH]; simpl; [reflexivity|].
  now rewrite dispatchEvent_none.
Qed.

Lemma unbound_callback (w : World) (cb : FrameCallback) :
  canvas w = None ->
  let w' := runFrameCallback w cb in
  canvas w' = None /\ listeners w' = listeners w /\ renderer w' = renderer w /\
  interactiveCanvas w' = interactiveCanvas w /\ nextObject w' = nextObject w.
Proof.
  intros C. destruct cb as [|j].
  - cbn [runFrameCallback]. rewrite redraw_idle; [repeat split; try done|].
    unfold canDraw. rewrite C. destruct (isReady w), (resources w); reflexivity.
  - cbv zeta. rewrite render_shape. simpl. repeat split; try done.
Qed.

Lemma unbound_step (w : World) (i : Input) :
  canvas w = None ->
  let w' := step w i in
  canvas w' = None /\ listeners w' = listeners w /\ renderer w' = renderer w /\
  interactiveCanvas w' = interactiveCanvas w /\ nextObject w' = nextObject w.
Proof.
  intros C. destruct i as [ct'|tgt e|o'|]; simpl.
  - unfold resizeObserverCallback. simpl. rewrite C. simpl. repeat split; try done.
  - rewrite dispatchEvent_shape. simpl. repeat split; try done.
  - destruct (bool_decide _); [repeat split; try done|]. unfold optionsWatcher. simpl.
    destruct (interactiveCanvas w) eqn:I; simpl; rewrite ?I; repeat split; try done.
  - unfold animationFrame.
    assert (P : canvas (set_animationFrames [] w) = None /\
                listeners (set_animationFrames [] w) = listeners w /\
                renderer (set_animationFrames [] w) = renderer w /\
                interactiveCanvas (set_animationFrames [] w) = interactiveCanvas w /\
                nextObject (set_animationFrames [] w) = nextObject w)
      by (simpl; repeat split; assumption).
    revert P. generalize (set_animationFrames [] w).
    induction (animationFrames w) as [|cb cbs IH]; intros w0 P; simpl; [exact P|].
    destruct P as (P0 & P1 & P2 & P3 & P4).
    apply IH. destruct (unbound_callback w0 cb P0) as (? & ? & ? & ? & ?).
    repeat split; congruence.
Qed.

Lemma unbound_run (inputs : list Input) (w : World) :
  canvas w = None ->
  let w' := run w inputs in
  canvas w' = None /\ listeners w' = listeners w /\ renderer w' = renderer w /\
  interactiveCanvas w' = interactiveCanvas w /\ nextObject w' = nextObject w.
Proof.
  unfold run. revert w. induction inputs as [|i inputs IH]; intros w C; simpl.
  - repeat split; try done.
  - destruct (unbound_step w i C) as (C' & <- & <- & <- & <-). now apply IH.
Qed.

(** *** What the constructor fixes *)

Lemma call_fixed (h : Handler) (e : Event) (c : t) :
  size (call h e c).1 = size c /\ center (call h e c).1 = center c /\
  maxViewDist (call h e c).1 = maxViewDist c.
Proof.
  destruct h, e; simpl; try (repeat split; reflexivity);
    unfold handleMouseDown, handleMouseMove, handleTouchStart, handleTouchMove,
      handleTouchEnd;
    repeat case_match; repeat split; reflexivity.
Qed.

Lemma renderImmediately_fixed (c : t) :
  size (renderImmediately c).1 = size c /\ center (renderImmediately c).1 = center c /\
  maxViewDist (renderImmediately c).1 = maxViewDist c.
Proof.
  unfold renderImmediately. simpl. destruct (center c) as [[? ?] ?] eqn:C.
  simpl. now rewrite C.
Qed.

Lemma fixed_insert (w : World) (i : nat) (c c' : t) :
  fixedAtConstruction w -> objects w !! i = Some c ->
  size c' = size c /\ center c' = center c /\ maxViewDist c' = maxViewDist c ->
  forall j d, <[i := c']> (objects w) !! j = Some d ->
    size d = structure w /\
    center d = center (new (structure w)) /\
    maxViewDist d = maxViewDist (new (structure w)).
Proof.
  intros F C (E1 & E2 & E3) j d. rewrite lookup_insert. case_decide.
  - intros [= <-]. rewrite E1, E2, E3. now apply (F i).
  - apply F.
Qed.

Lemma fixed_invoke (e : Event) (w : World) (l : Listener) :
  fixedAtConstruction w -> fixedAtConstruction (invoke e w l).
Proof.
  intros F. unfold invoke. destruct (objects w !! this l) as [c|] eqn:C; [|assumption].
  pose proof (call_fixed (callback l) e c) as K.
  destruct (call _ _ _) as [c' effs]. rewrite performAll_shape.
  intros j d. simpl. now apply (fixed_insert w (this l) c).
Qed.

Lemma fixed_dispatchEvent (tgt : EventTarget) (e : Event) (w : World) :
  fixedAtConstruction w -> fixedAtConstruction (dispatchEvent tgt e w).
Proof.
  unfold dispatchEvent. generalize (path tgt ≫= (fun t => listening t e w)).
  intros ls. revert w. induction ls as [|l ls IH]; intros w F; simpl; [assumption|].
  now apply IH, fixed_invoke.
Qed.

Lemma fixed_runFrameCallback (w : World) (cb : FrameCallback) :
  fixedAtConstruction w -> fixedAtConstruction (runFrameCallback w cb).
Proof.
  intros F. destruct cb as [|i].
  - cbn [runFrameCallback]. destruct (canDraw w) eqn:G; [|now rewrite redraw_idle].
    destruct (redraw_rebuilds w G) as (_ & _ & _ & Eo & _ & _ & Es & _).
    intros j d. rewrite Eo, Es, lookup_insert. case_decide.
    + intros [= <-]. repeat split. unfold new. now destruct (structure w) as [[? ?] ?].
    + apply F.
  - simpl. destruct (objects w !! i) as [c|] eqn:C; [|assumption].
    pose proof (renderImmediately_fixed c) as K.
    destruct (renderImmediately c) as [c' view]. rewrite onRender_shape.
    intros j d. simpl. now apply (fixed_insert w i c).
Qed.

Lemma fixed_same (w w' : World) :
  objects w' = objects w -> structure w' = structure w ->
  fixedAtConstruction w -> fixedAtConstruction w'.
Proof. unfold fixedAtConstruction. now intros -> ->. Qed.

Lemma fixed_step (w : World) (i : Input) :
  fixedAtConstruction w -> fixedAtConstruction (step w i).
Proof.
  intros F. destruct i as [ct|tgt e|o|]; simpl.
  - unfold resizeObserverCallback. simpl.
    destruct (canvas w); revert F; now apply fixed_same.
  - now apply fixed_dispatchEvent.
  - destruct (bool_decide _); [assumption|]. unfold optionsWatcher. simpl.
    destruct (interactiveCanvas w); revert F; now apply fixed_same.
  - unfold animationFrame.
    assert (F0 : fixedAtConstruction (set_animationFrames [] w))
      by (revert F; now apply fixed_same).
    revert F0. generalize (set_animationFrames [] w).
    induction (animationFrames w) as [|cb cbs IH]; intros w0 F0; simpl; [assumption|].
    now apply IH, fixed_runFrameCallback.
Qed.

(** *** What may queue a [redraw] *)

Lemma isRender_queue (q : list FrameCallback) :
  forallb isRender q = true <-> Redraw ∉ q.
Proof.
  induction q as [|cb q IH]; simpl.
  - split; [intros _; apply not_elem_of_nil|reflexivity].
  - rewrite andb_true_iff, not_elem_of_cons, IH. destruct cb; simpl; split.
    + intros [? _]. discriminate.
    + intros [? _]. contradiction.
    + intros [_ ?]. split; [discriminate|assumption].
    + intros [_ ?]. split; [reflexivity|assumption].
Qed.

Lemma performAll_queue (effs : list Effect) (i : nat) (w : World) :
  Redraw ∉ animationFrames w -> Redraw ∉ animationFrames (foldl (perform i) w effs).
Proof.
  revert w. induction effs as [|eff effs IH]; intros w N; simpl; [assumption|].
  apply IH. destruct eff; simpl; [assumption|].
  rewrite not_elem_of_app, not_elem_of_cons. split; [assumption|].
  split; [discriminate|apply not_elem_of_nil].
Qed.

Lemma invoke_queue (e : Event) (w : World) (l : Listener) :
  Redraw ∉ animationFrames w -> Redraw ∉ animationFrames (invoke e w l).
Proof.
  intros N. unfold invoke. destruct (objects w !! this l); [|assumption].
  destruct (call _ _ _) as [c' effs]. now apply performAll_queue.
Qed.

Lemma dispatchEvent_queue (tgt : EventTarget) (e : Event) (w : World) :
  Redraw ∉ animationFrames w -> Redraw ∉ animationFrames (dispatchEvent tgt e w).
Proof.
  unfold dispatchEvent. generalize (path tgt ≫= (fun t => listening t e w)).
  intros ls. revert w. induction ls as [|l ls IH]; intros w N; simpl; [assumption|].
  now apply IH, invoke_queue.
Qed.

Lemma no_resize_step (w : World) (i : Input) :
  Redraw ∉ animationFrames w -> (forall ct, i <> Resized ct) ->
  let w' := step w i in
  (Redraw ∉ animationFrames w') /\
  renderer w' = renderer w /\ interactiveCanvas w' = interactiveCanvas w /\
  listeners w' = listeners w /\ nextObject w' = nextObject w.
Proof.
  intros N R. destruct i as [ct|tgt e|o|]; [exfalso; now apply (R ct)| | |]; simpl.
  - split; [now apply dispatchEvent_queue|].
    rewrite dispatchEvent_shape. simpl. repeat split.
  - destruct (bool_decide _); [repeat split; assumption|].
    unfold optionsWatcher. simpl.
    destruct (interactiveCanvas w) eqn:I; simpl; rewrite ?I; repeat split; try assumption.
    rewrite not_elem_of_app, not_elem_of_cons. split; [assumption|].
    split; [discriminate|apply not_elem_of_nil].
  - apply isRender_queue in N. unfold animationFrame.
    destruct (renders_keep (animationFrames w) (set_animationFrames [] w) N)
      as (-> & -> & -> & -> & _).
    destruct (frames_keep (animationFrames w) (set_animationFrames [] w))
      as (_ & _ & _ & _ & _ & _ & L).
    destruct (frames_queue (animationFrames w) (set_animationFrames [] w))
      as (q & _ & _ & _).
    simpl. repeat split; try apply not_elem_of_nil.
    assert (G : forall cbs w0, forallb isRender cbs = true ->
              nextObject (foldl runFrameCallback w0 cbs) = nextObject w0).
    { clear. induction cbs as [|cb cbs IH]; intros w0 R; simpl in *; [reflexivity|].
      apply andb_true_iff in R as [R1 R]. destruct cb as [|j]; [discriminate|].
      rewrite IH by assumption. now rewrite render_shape. }
    now rewrite G.
Qed.

End Page.

(** ** The viewport *)

Section Viewport.
Context `{Math}.
Import InteractiveCanvas.

Variables (cv : Canvas) (ct : Container) (ready : bool)
          (res : option Resources) (size : float * float * float) (o : Options).

Lemma run_app (w : World) (xs ys : list Input) :
  run w (xs ++ ys) = run (run w xs) ys.
Proof. apply foldl_app. Qed.

(** C2, as amended. Whatever inputs a mounted component received, a
    render of an instance hands [onRender] the view matrix of the camera
    [c'] that the clamps make of the current camera [c]:
    - [xRot] lies in [[-PI/2, PI/2]], unless it was [NaN] and stays so;
    - [yRot] is the accumulated angle taken [% (2 * PI)]: smaller than
      [2 * PI] in magnitude or [NaN], and for a finite angle the double
      whose value is the remainder truncated towards zero;
    - [viewDist] lies in [[1, maxViewDist]], unless it or the bound was
      [NaN] and it is [NaN], or the bound is below [1] and it is the bound;
    - [maxViewDist] is the square of the rounded diagonal of the bounding
      box of the structure. *)
Theorem render_shows_clamped_camera (inputs : list Input) (this0 : nat) (c : t) :
  let w := run (mounted cv ct ready res size o) inputs in
  objects w !! this0 = Some c ->
  let c' := (renderImmediately c).1 in
  runFrameCallback w (RenderImmediately this0)
    = onRender (viewOf c') (set_objects (<[this0 := c']> (objects w)) w) /\
  clamped c c' /\
  wrapped (yRot c) (yRot c') /\
  (let '(s0, s1, s2) := size in
   maxViewDist c' = JS.sq (sqrt (JS.sq s0 + JS.sq s1 + JS.sq s2))).
Proof.
  intros w E c'.
  destruct (renderImmediately_clamps c) as (Cl & Ey & Em & Ev). fold c' in Cl, Ey, Em, Ev.
  destruct (wellFormed_run cv ct ready res size o inputs) as (_ & _ & B).
  destruct (sameEnvironment_run cv ct ready res size o inputs) as (Es & _).
  fold w in B, Es. split; [|split; [|split]].
  - simpl. rewrite E. subst c'. rewrite <- Ev.
    now destruct (renderImmediately c).
  - exact Cl.
  - exact Ey.
  - rewrite Em, (B _ _ E), Es. now destruct size as [[s0 s1] s2].
Qed.

(** C7. After [destroy()] on an instance of a mounted component, none of
    the seven listeners its constructor attached is left on the canvas or
    the document, no listener of the instance at all, and no run of
    dispatched events changes the instance. *)
Theorem destroy_detaches_every_listener (inputs : list Input) (this0 : nat)
    (events : list (EventTarget * Event)) :
  let w := destroy this0 (run (mounted cv ct ready res size o) inputs) in
  (forall l, l ∈ listenersOf this0 -> l ∉ listeners w) /\
  (forall l, l ∈ listeners w -> this l <> this0) /\
  objects (dispatchAll events w) !! this0 = objects w !! this0 /\
  objects w !! this0 = objects (run (mounted cv ct ready res size o) inputs) !! this0.
Proof.
  intros w.
  destruct (wellFormed_run cv ct ready res size o inputs) as (A & _).
  assert (D : forall l, l ∈ listeners w -> this l <> this0)
    by now apply destroy_detaches.
  split; [|split; [|split]].
  - intros l I J. apply elem_of_destroy in J as [_ J]. now apply J.
  - exact D.
  - now apply dispatchAll_lookup_ne.
  - subst w. now rewrite destroy_shape.
Qed.

(** C1, as amended. The observer's callback sets the backing store of the
    canvas to the client size of the container and queues the module's
    [redraw] for the next animation frame; by itself it leaves the
    renderer, the instance and its listeners alone. When the queued
    [redraw] runs, in whatever state [w2] the component is by then, and
    the resources are ready and the canvas yields a WebGL context, it
    detaches the listeners of the current instance and makes a new
    renderer and a new instance, whose camera starts from the initial
    values; otherwise it changes nothing. *)
Theorem resize_queues_a_rebuild (inputs inputs' : list Input) (ct' : Container) :
  let w := run (mounted cv ct ready res size o) inputs in
  let w1 := step w (Resized ct') in
  let w2 := run w1 inputs' in
  let r := nextObject w2 in
  (canvas w1 = Some {| width := clientWidth ct'; height := clientHeight ct';
                       webgl := webgl cv |} /\
   animationFrames w1 = animationFrames w ++ [Redraw] /\
   renderer w1 = renderer w /\ interactiveCanvas w1 = interactiveCanvas w /\
   objects w1 = objects w /\ listeners w1 = listeners w) /\
  (if ready && bool_decide (is_Some res) && webgl cv
   then renderer (redraw w2) = Some r /\
        renderer (redraw w2) <> renderer w2 /\
        interactiveCanvas (redraw w2) = Some (S r) /\
        interactiveCanvas (redraw w2) <> interactiveCanvas w2 /\
        objects (redraw w2) !! S r = Some (new size) /\
        (forall i l, interactiveCanvas w2 = Some i ->
                     l ∈ listeners (redraw w2) -> this l <> i) /\
        (forall l, l ∈ listenersOf (S r) -> l ∈ listeners (redraw w2))
   else redraw w2 = w2).
Proof.
  intros w w1 w2 r. split.
  - destruct (sameEnvironment_run cv ct ready res size o inputs)
      as (_ & _ & _ & cv' & C & G). fold w in C.
    subst w1. simpl. unfold resizeObserverCallback. simpl. rewrite C. simpl.
    rewrite G. repeat split.
  - assert (R : w2 = run (mounted cv ct ready res size o)
                       (inputs ++ Resized ct' :: inputs'))
      by (subst w2 w1 w; now rewrite run_app).
    pose proof (canDraw_run cv ct ready res size o (inputs ++ Resized ct' :: inputs')) as G.
    destruct (wellFormed_run cv ct ready res size o (inputs ++ Resized ct' :: inputs'))
      as (A & (Ar & Ai & Al & Ao) & B).
    destruct (sameEnvironment_run cv ct ready res size o (inputs ++ Resized ct' :: inputs'))
      as (Es & _).
    rewrite <- R in G, A, Ar, Ai, Al, Ao, B, Es.
    destruct (ready && bool_decide (is_Some res) && webgl cv);
      [|now apply redraw_idle].
    destruct (redraw_rebuilds w2 G) as (Er & Ei & _ & Eo & _ & El & _).
    fold r in Er, Ei, Eo, El. repeat split.
    + exact Er.
    + rewrite Er. intros E. symmetry in E. apply Ar in E. subst r. lia.
    + exact Ei.
    + rewrite Ei. intros E. symmetry in E. apply Ai in E. subst r. lia.
    + now rewrite Eo, lookup_insert_eq, Es.
    + intros i l I J E. apply El in J as [[J N]|J].
      * apply (N i I). rewrite <- E. now apply A.
      * apply this_listenersOf in J. apply Ai in I. subst r. lia.
    + intros l I. apply El. now right.
Qed.

(** At most one live camera controller and one live renderer: in every
    state a mounted component reaches, the listeners on the canvas and the
    document are exactly the seven of the instance the script holds (none
    when it holds none), that instance exists, and the script holds an
    instance exactly when it holds a renderer. *)
Theorem one_live_controller (inputs : list Input) :
  oneLiveController (run (mounted cv ct ready res size o) inputs).
Proof. apply oneLiveController_run. Qed.

(** A change of the option flags asks the current instance for a frame and
    rebuilds nothing: the renderer, the instance, its camera and its
    listeners are the ones from before. *)
Theorem options_change_keeps_renderer (w : World) (o' : Options) :
  let w' := step w (OptionsChanged o') in
  renderer w' = renderer w /\
  interactiveCanvas w' = interactiveCanvas w /\
  objects w' = objects w /\
  listeners w' = listeners w /\
  animationFrames w' =
    animationFrames w ++
    match interactiveCanvas w with
    | Some i => if bool_decide (o' = options w) then [] else [RenderImmediately i]
    | None => []
    end.
Proof.
  simpl. case_bool_decide.
  - destruct (interactiveCanvas w); rewrite app_nil_r; repeat split.
  - unfold optionsWatcher. simpl.
    destruct (interactiveCanvas w) eqn:I; simpl; rewrite ?app_nil_r, ?I; repeat split.
Qed.

(** A drag as the page delivers it. With the instance [i] current and its
    camera [c], a primary-button [mousedown] on the canvas at [(x0, y0)]
    followed by a [mousemove] on the document to [(x, y)] leaves the
    instance with the camera of [dragged] and queues one render of it. *)
Theorem drag_through_the_page (inputs : list Input) (i : nat) (c : t)
    (x0 y0 x y : float) (b : Z) :
  let w := run (mounted cv ct ready res size o) inputs in
  interactiveCanvas w = Some i -> objects w !! i = Some c ->
  let w1 := dispatchEvent CanvasElement (MouseDown (mouseAt 0 x0 y0)) w in
  let w2 := dispatchEvent OwnerDocument (MouseMove (mouseAt b x y)) w1 in
  objects w2 !! i = Some (dragged (set_dragPos (Some (x0, y0)) c) x0 y0 x y) /\
  animationFrames w2 = animationFrames w ++ [RenderImmediately i].
Proof.
  intros w I C w1 w2.
  destruct (oneLiveController_run cv ct ready res size o inputs) as (L & _).
  fold w in L. rewrite I in L.
  assert (L1 : forall e, path CanvasElement ≫= (fun t => listening t (MouseDown e) w)
            = [ {| target := CanvasElement; type := mousedown; this := i;
                   callback := HandleMouseDown |} ])
    by (intros e; unfold listening; rewrite L; vm_compute; reflexivity).
  assert (E1 : w1 = set_objects (<[i := set_dragPos (Some (x0, y0)) c]> (objects w)) w).
  { subst w1. unfold dispatchEvent. rewrite L1. simpl. unfold invoke. simpl.
    now rewrite C. }
  assert (L2 : forall e, path OwnerDocument ≫= (fun t => listening t (MouseMove e) w1)
            = [ {| target := OwnerDocument; type := mousemove; this := i;
                   callback := HandleMouseMove |} ]).
  { intros e. unfold listening.
    replace (listeners w1) with (listenersOf i) by (rewrite E1; simpl; now rewrite L).
    vm_compute. reflexivity. }
  assert (C1 : objects w1 !! i = Some (set_dragPos (Some (x0, y0)) c))
    by (rewrite E1; simpl; apply lookup_insert_eq).
  assert (E2 : w2 = requestAnimationFrame (RenderImmediately i)
                      (set_objects (<[i := dragged (set_dragPos (Some (x0, y0)) c) x0 y0 x y]>
                                      (objects w1)) w1)).
  { subst w2. unfold dispatchEvent. rewrite L2. simpl. unfold invoke. simpl.
    now rewrite C1. }
  rewrite E2. simpl. rewrite lookup_insert_eq. split; [reflexivity|].
  now rewrite E1.
Qed.

(** In every state a mounted component reaches, an event dispatched on
    the canvas or on its document runs exactly one callback: the handler
    the constructor registered for the type of the event, on the instance
    the script holds, once. Events other than [mousemove] and [mouseup]
    dispatched on the document outside the canvas run nothing, and with no
    instance nothing runs at all. *)
Theorem event_runs_its_handler_once (inputs : list Input) (tgt : EventTarget)
    (e : Event) :
  let w := run (mounted cv ct ready res size o) inputs in
  (forall i c, interactiveCanvas w = Some i -> objects w !! i = Some c ->
     dispatchEvent tgt e w
       = if reaches tgt (typeOf e)
         then foldl (perform i)
                (set_objects (<[i := (call (handlerFor (typeOf e)) e c).1]> (objects w)) w)
                (call (handlerFor (typeOf e)) e c).2
         else w) /\
  (interactiveCanvas w = None -> dispatchEvent tgt e w = w).
Proof.
  intros w.
  destruct (oneLiveController_run cv ct ready res size o inputs) as (L & _).
  fold w in L. split.
  - intros i c I C. rewrite I in L. now apply dispatchEvent_current.
  - intros I. rewrite I in L. now apply dispatchEvent_none.
Qed.

Lemma set_dragPos_None (c : t) : dragPos c = None -> set_dragPos None c = c.
Proof. destruct c; simpl. now intros ->. Qed.

Lemma idle_event (w : World) (i : nat) (c : t) (te : EventTarget * Event) :
  listeners w = listenersOf i -> objects w !! i = Some c -> dragPos c = None ->
  idle te = true -> dispatchEvent te.1 te.2 w = w.
Proof.
  intros L C D I. rewrite (dispatchEvent_current te.1 te.2 w i c L C).
  destruct (reaches _ _); [|reflexivity].
  destruct te as [tgt [m|m|m|m|m|m|m]]; try discriminate; cbn in *.
  - unfold handleMouseDown. apply negb_true_iff in I. rewrite I. cbn.
    now rewrite insert_id, set_objects_id.
  - unfold handleMouseMove. rewrite D. cbn.
    now rewrite insert_id, set_objects_id.
  - unfold handleMouseUp. cbn. rewrite set_dragPos_None by assumption.
    now rewrite insert_id, set_objects_id.
Qed.

Lemma idle_events (es : list (EventTarget * Event)) (w : World) (i : nat) (c : t) :
  listeners w = listenersOf i -> objects w !! i = Some c -> dragPos c = None ->
  forallb idle es = true -> dispatchAll es w = w.
Proof.
  intros L C D. unfold dispatchAll.
  induction es as [|te es IH]; [reflexivity|]. simpl.
  rewrite andb_true_iff. intros [I Is].
  rewrite (idle_event w i c te L C D I). now apply IH.
Qed.

(** A [mouseup] anywhere in the document ends the drag and touches
    nothing else. From then on mouse moves, releases and presses of a
    button other than the primary one, however many and wherever they are
    dispatched, leave the whole page as it is: no rotation and no frame
    asked for. *)
Theorem release_ends_the_drag (inputs : list Input) (i : nat) (c : t)
    (tgt : EventTarget) (m : MouseEvent.t) (es : list (EventTarget * Event)) :
  let w := run (mounted cv ct ready res size o) inputs in
  interactiveCanvas w = Some i -> objects w !! i = Some c ->
  forallb idle es = true ->
  let w1 := dispatchEvent tgt (MouseUp m) w in
  w1 = set_objects (<[i := set_dragPos None c]> (objects w)) w /\
  dispatchAll es w1 = w1.
Proof.
  intros w I C Is w1.
  destruct (oneLiveController_run cv ct ready res size o inputs) as (L & _).
  fold w in L. rewrite I in L.
  assert (E : w1 = set_objects (<[i := set_dragPos None c]> (objects w)) w).
  { subst w1. rewrite (dispatchEvent_current tgt _ w i c L C). now destruct tgt. }
  split; [exact E|].
  apply (idle_events es w1 i (set_dragPos None c)); try assumption.
  - now rewrite E.
  - rewrite E. simpl. apply lookup_insert_eq.
  - reflexivity.
Qed.

Lemma step_no_frame (w : World) (i : Input) :
  i <> AnimationFrame ->
  gl (step w i) = gl w /\ renderer (step w i) = renderer w /\
  interactiveCanvas (step w i) = interactiveCanvas w /\
  listeners (step w i) = listeners w /\ nextObject (step w i) = nextObject w.
Proof.
  intros N. destruct i as [ct'|tgt e|o'|]; [| | |contradiction]; simpl.
  - unfold resizeObserverCallback. simpl. destruct (canvas w); repeat split; try done.
  - rewrite dispatchEvent_shape. simpl. repeat split.
  - case_bool_decide; [repeat split|]. unfold optionsWatcher. simpl.
    destruct (interactiveCanvas w) eqn:I; simpl; rewrite ?I; repeat split.
Qed.

(** Events, resizes and option changes only queue work. However many of
    them arrive, as long as no animation frame runs nothing is drawn, and
    the renderer, the instance and the listeners are the ones from
    before. *)
Theorem only_frames_draw (w : World) (inputs : list Input) :
  AnimationFrame ∉ inputs ->
  let w' := run w inputs in
  gl w' = gl w /\ renderer w' = renderer w /\
  interactiveCanvas w' = interactiveCanvas w /\
  listeners w' = listeners w /\ nextObject w' = nextObject w.
Proof.
  unfold run. revert w. induction inputs as [|i inputs IH]; intros w N; simpl.
  - repeat split; try done.
  - apply not_elem_of_cons in N as [Ni N].
    destruct (IH (step w i) N) as (-> & -> & -> & -> & ->).
    apply step_no_frame. congruence.
Qed.

Lemma idle_callback (w : World) (cb : FrameCallback) :
  canDraw w = false -> objects w = ∅ -> runFrameCallback w cb = w.
Proof.
  intros G O. destruct cb as [|j]; simpl; [now apply redraw_idle|].
  now rewrite O, lookup_empty.
Qed.

Lemma idle_callbacks (cbs : list FrameCallback) (w : World) :
  canDraw w = false -> objects w = ∅ -> foldl runFrameCallback w cbs = w.
Proof.
  intros G O. induction cbs as [|cb cbs IH]; simpl; [reflexivity|].
  now rewrite idle_callback.
Qed.

(** When the resource store is not ready, the resources are missing, or
    the canvas yields no WebGL context, [redraw] returns at its guards
    every time: whatever the inputs, the script holds no renderer and no
    instance, no listener is attached, nothing is allocated, nothing is
    drawn, and the only callbacks ever queued are the [redraw]s of the
    resize observer. *)
Theorem nothing_is_built_without_resources (inputs : list Input) :
  ready && bool_decide (is_Some res) && webgl cv = false ->
  let w := run (mounted cv ct ready res size o) inputs in
  renderer w = None /\ interactiveCanvas w = None /\ listeners w = [] /\
  objects w = ∅ /\ gl w = [] /\
  (forall cb, cb ∈ animationFrames w -> cb = Redraw).
Proof.
  intros G. induction inputs as [|i inputs IH] using rev_ind.
  - simpl. repeat split. intros cb I. now apply elem_of_nil in I.
  - rewrite run_app. simpl.
    pose proof (canDraw_run cv ct ready res size o inputs) as D. rewrite G in D.
    set (w := run (mounted cv ct ready res size o) inputs) in *.
    simpl in IH. destruct IH as (R & I & L & O & GL & Q).
    destruct i as [ct'|tgt e|o'|]; simpl.
    + unfold resizeObserverCallback. simpl. destruct (canvas w); simpl.
      * split; [|split; [|split; [|split; [|split]]]]; try assumption.
        intros cb J. apply elem_of_app in J as [J|J]; [now apply Q|].
        now apply list_elem_of_singleton in J.
      * split; [|split; [|split; [|split; [|split]]]]; assumption.
    + rewrite dispatchEvent_none by assumption.
      split; [|split; [|split; [|split; [|split]]]]; assumption.
    + destruct (bool_decide (o' = options w));
        [split; [|split; [|split; [|split; [|split]]]]; assumption|].
      unfold optionsWatcher. simpl. rewrite I.
      split; [|split; [|split; [|split; [|split]]]]; assumption.
    + unfold animationFrame. rewrite idle_callbacks by assumption.
      simpl. split; [|split; [|split; [|split; [|split]]]]; try assumption.
      intros cb J. now apply elem_of_nil in J.
Qed.

(** The component does not animate by itself. From any state, after two
    animation frames with no input between them the queue is empty, and
    every further frame leaves the page as it is: a [redraw] queues one
    render, and a render queues nothing. *)
Theorem viewport_settles_in_two_frames (w : World) :
  let w2 := run w [AnimationFrame; AnimationFrame] in
  animationFrames w2 = [] /\ step w2 AnimationFrame = w2.
Proof.
  simpl. unfold animationFrame at 1.
  destruct (frames_queue (animationFrames w) (set_animationFrames [] w))
    as (q1 & E1 & R1 & _).
  set (w1 := animationFrame w) in *. fold w1.
  change (foldl runFrameCallback (set_animationFrames [] w) (animationFrames w))
    with w1 in E1. simpl in E1.
  destruct (frames_queue (animationFrames w1) (set_animationFrames [] w1))
    as (q2 & E2 & _ & N2).
  rewrite E1 in N2. specialize (N2 R1). subst q2. simpl in E2.
  assert (E : animationFrames (animationFrame w1) = []) by exact E2.
  split; [exact E|]. now apply animationFrame_idle.
Qed.

Lemma canDraw_sameEnvironment (w : World) :
  sameEnvironment cv ready res size w ->
  canDraw w = ready && bool_decide (is_Some res) && webgl cv.
Proof.
  intros (_ & R & S & cv' & C & G).
  unfold canDraw. rewrite R, S, C, G.
  destruct ready, res, (webgl cv); reflexivity.
Qed.

(** A [wheel] event on the canvas adds a hundredth of [deltaY] to
    [viewDist] and queues one render. The frame that follows clamps the
    sum into [[1, maxViewDist]] and draws once, with the view of the
    clamped camera, on the current canvas and renderer. *)
Theorem wheel_zoom_is_drawn_clamped (inputs : list Input) (i : nat) (c : t)
    (e : WheelEvent.t) :
  let w := run (mounted cv ct ready res size o) inputs in
  interactiveCanvas w = Some i -> objects w !! i = Some c ->
  animationFrames w = [] ->
  let w' := run w [Dispatched CanvasElement (Wheel e); AnimationFrame] in
  let c' := (renderImmediately
               (set_viewDist (viewDist c + WheelEvent.deltaY e / 100) c)).1 in
  objects w' !! i = Some c' /\
  viewDist c'
    = JS.min (JS.max (viewDist c + WheelEvent.deltaY e / 100) 1) (maxViewDist c) /\
  (exists cv' r, canvas w = Some cv' /\ renderer w = Some r /\
     gl w' = gl w ++ drawCalls cv' r (options w) (viewOf c')) /\
  animationFrames w' = [].
Proof.
  intros w I C Q w' c'.
  destruct (oneLiveController_run cv ct ready res size o inputs) as (L & _ & R).
  destruct (sameEnvironment_run cv ct ready res size o inputs)
    as (_ & _ & _ & cv' & Cv & _).
  fold w in L, R, Cv. rewrite I in L, R.
  destruct (proj1 R (mk_is_Some _ _ eq_refl)) as [r Er].
  set (c1 := set_viewDist (viewDist c + WheelEvent.deltaY e / 100) c) in *.
  assert (E1 : dispatchEvent CanvasElement (Wheel e) w
               = requestAnimationFrame (RenderImmediately i)
                   (set_objects (<[i := c1]> (objects w)) w)).
  { now rewrite (dispatchEvent_current _ _ w i c L C). }
  assert (E : w' = set_animationFrames []
                     (set_gl (gl w ++ drawCalls cv' r (options w) (viewOf c'))
                        (set_objects (<[i := c']> (objects w)) w))).
  { subst w'. unfold run. cbn [foldl step]. rewrite E1.
    unfold animationFrame, requestAnimationFrame. cbn [animationFrames set_animationFrames set_objects].
    rewrite Q. cbn [app foldl].
    rewrite (render_current _ i r c1 cv');
      [|assumption|assumption|apply lookup_insert_eq].
    unfold set_gl, set_objects, set_animationFrames. cbn.
    now rewrite insert_insert_eq. }
  split; [|split; [|split]].
  - rewrite E. simpl. apply lookup_insert_eq.
  - subst c' c1. unfold renderImmediately. simpl.
    now destruct (center c) as [[? ?] ?].
  - exists cv', r. rewrite E. auto.
  - now rewrite E.
Qed.

Lemma first_render_angles (sz : float * float * float) :
  xRot (renderImmediately (new sz)).1 = 0.5%float /\
  yRot (renderImmediately (new sz)).1 = 0.5%float.
Proof.
  destruct sz as [[s0 s1] s2]. unfold renderImmediately, new. simpl.
  split; apply Prim2SF_inj; vm_compute; reflexivity.
Qed.

(** A resize discards the camera. With the resources ready and a WebGL
    context at hand, whatever the user did before: after the observer's
    callback and two animation frames, the script holds a new instance
    whose camera is the initial one after its first render, with both
    angles at [0.5]; the canvas has the size of the container; the last
    thing drawn is that view at that size; and nothing is left in the
    queue. *)
Theorem resize_resets_the_camera (inputs : list Input) (ct' : Container) :
  ready && bool_decide (is_Some res) && webgl cv = true ->
  let w := run (mounted cv ct ready res size o) inputs in
  let w3 := run w [Resized ct'; AnimationFrame; AnimationFrame] in
  let c0 := (renderImmediately (new size)).1 in
  let cv' := {| width := clientWidth ct'; height := clientHeight ct';
                webgl := webgl cv |} in
  exists i r g,
    interactiveCanvas w3 = Some i /\ renderer w3 = Some r /\
    objects w3 !! i = Some c0 /\
    xRot c0 = 0.5%float /\ yRot c0 = 0.5%float /\
    canvas w3 = Some cv' /\
    gl w3 = g ++ drawCalls cv' r (options w) (viewOf c0) /\
    animationFrames w3 = [].
Proof.
  intros G w w3 c0 cv'.
  destruct (sameEnvironment_run cv ct ready res size o inputs)
    as (Es & Er & Ers & cvx & Cx & Gx). fold w in Es, Er, Ers, Cx.
  set (w1 := step w (Resized ct')).
  assert (E1 : w1 = requestAnimationFrame Redraw
                      (set_canvas (Some cv') (set_container (Some ct') w))).
  { subst w1. simpl. unfold resizeObserverCallback. simpl. rewrite Cx.
    subst cv'. now rewrite Gx. }
  set (wq := foldl runFrameCallback (set_animationFrames [] w1) (animationFrames w)).
  assert (E2 : animationFrame w1 = redraw wq).
  { unfold animationFrame. rewrite E1 at 2. simpl. now rewrite foldl_app. }
  destruct (frames_keep (animationFrames w) (set_animationFrames [] w1))
    as (Kc & _ & Ko & Ks & Kr & Krs & _). fold wq in Kc, Ko, Ks, Kr, Krs.
  rewrite E1 in Kc, Ko, Ks, Kr, Krs. simpl in Kc, Ko, Ks, Kr, Krs.
  assert (Gq : canDraw wq = true).
  { unfold canDraw. rewrite Kc, Kr, Krs, Er, Ers. simpl. rewrite <- G.
    destruct ready, res, (webgl cv); reflexivity. }
  assert (Qq : queuedAllocated wq).
  { apply queuedAllocated_frames. intros j I. now apply elem_of_nil in I. }
  destruct (frames_queue (animationFrames w) (set_animationFrames [] w1))
    as (q & Eq & Rq & _). fold wq in Eq. simpl in Eq.
  destruct (redraw_rebuilds wq Gq)
    as (Rr & Ri & _ & Ro & Ra & _ & Rs & Rc & _ & Rop & _ & _ & Rg).
  set (w2 := redraw wq) in *. set (r0 := nextObject wq) in *.
  set (wr := foldl runFrameCallback (set_animationFrames [] w2) q).
  assert (E3 : animationFrame w2 = runFrameCallback wr (RenderImmediately (S r0))).
  { unfold animationFrame. rewrite Ra, Eq. now rewrite foldl_app. }
  assert (Nq : RenderImmediately (S r0) ∉ q).
  { intros I. rewrite <- Eq in I. apply Qq in I. subst r0. lia. }
  destruct (renders_keep q (set_animationFrames [] w2) Rq) as (Wr & Wi & _ & Wa & Wo).
  fold wr in Wr, Wi, Wa, Wo. simpl in Wr, Wi, Wa.
  specialize (Wo _ Nq). simpl in Wo.
  destruct (frames_keep q (set_animationFrames [] w2)) as (Wc & _ & Wop & _).
  fold wr in Wc, Wop. simpl in Wc, Wop.
  assert (Cr : canvas wr = Some cv') by (rewrite Wc, Rc; exact Kc).
  assert (Or : objects wr !! S r0 = Some (new size)).
  { rewrite Wo, Ro, lookup_insert_eq, Ks, Es. reflexivity. }
  assert (Rrr : renderer wr = Some r0) by now rewrite Wr.
  assert (E : w3 = runFrameCallback wr (RenderImmediately (S r0))).
  { subst w3. unfold run. cbn [foldl]. fold w1. cbn [step]. now rewrite E2, <- E3. }
  rewrite (render_current wr (S r0) r0 (new size) cv' Cr Rrr Or) in E.
  fold c0 in E.
  destruct (first_render_angles size) as [Ax Ay].
  exists (S r0), r0, (gl wr). rewrite E. simpl.
  repeat split; try assumption.
  - now rewrite Wi.
  - apply lookup_insert_eq.
  - now rewrite Wop, Rop, Ko.
Qed.

Lemma onUnmounted_listeners (w : World) :
  oneLiveController w ->
  listeners (onUnmounted w) = [] /\
  onUnmounted w = set_listeners [] w.
Proof.
  intros (L & _). unfold onUnmounted.
  destruct (interactiveCanvas w) as [i|].
  - assert (E : listeners (destroy i w) = []) by now apply destroy_all.
    split; [exact E|]. now rewrite destroy_shape, E.
  - split; [exact L|]. destruct w; simpl in *. now subst.
Qed.

(** [onUnmounted] detaches every listener of the page and changes
    nothing else; afterwards no run of dispatched events changes
    anything. *)
Theorem unmount_detaches_every_listener (inputs : list Input)
    (es : list (EventTarget * Event)) :
  let w := run (mounted cv ct ready res size o) inputs in
  onUnmounted w = set_listeners [] w /\
  dispatchAll es (onUnmounted w) = onUnmounted w.
Proof.
  intros w.
  destruct (onUnmounted_listeners w (oneLiveController_run cv ct ready res size o inputs))
    as [L E].
  split; [exact E|]. now apply dispatchAll_none.
Qed.

(** Once the component is unmounted and its canvas ref is unbound (Vue
    unsets the template refs of a component it unmounts), nothing is
    built again: whatever callbacks were still queued and whatever comes
    later, no listener is attached, and the renderer, the instance and the
    allocation counter stay as they were. A [redraw] that a resize had
    queued before the unmount returns at its guard. *)
Theorem unmounted_viewport_stays_detached (inputs later : list Input) :
  let w := run (mounted cv ct ready res size o) inputs in
  let w' := run (onUnmounted (set_canvas None w)) later in
  listeners w' = [] /\ renderer w' = renderer w /\
  interactiveCanvas w' = interactiveCanvas w /\ nextObject w' = nextObject w.
Proof.
  intros w w'.
  assert (O : oneLiveController (set_canvas None w)).
  { generalize (oneLiveController_run cv ct ready res size o inputs).
    now apply oneLiveController_same. }
  destruct (onUnmounted_listeners _ O) as [L E].
  destruct (unbound_run later (onUnmounted (set_canvas None w))) as (_ & L' & R' & I' & N').
  { now rewrite E. }
  fold w' in L', R', I', N'. rewrite L', R', I', N', E. repeat split; try done.
Qed.

Lemma fixed_run (inputs : list Input) :
  fixedAtConstruction (run (mounted cv ct ready res size o) inputs).
Proof.
  unfold run.
  assert (F0 : fixedAtConstruction (mounted cv ct ready res size o))
    by (intros j d E; simpl in E; now rewrite lookup_empty in E).
  revert F0. generalize (mounted cv ct ready res size o).
  induction inputs as [|x xs IH]; intros w F0; simpl; [assumption|].
  now apply IH, fixed_step.
Qed.

(** No handler and no render moves what the constructor computed from
    the structure: in every state a mounted component reaches, every
    instance has the size of the structure, looks at the centre of its
    bounding box, and is bound by the square of its rounded diagonal. *)
Theorem camera_orbits_the_centre (inputs : list Input) (i : nat) (c : t) :
  let w := run (mounted cv ct ready res size o) inputs in
  objects w !! i = Some c ->
  InteractiveCanvas.size c = size /\
  center c = (size.1.1 / 2, size.1.2 / 2, size.2 / 2)%float /\
  maxViewDist c = JS.sq (sqrt (JS.sq size.1.1 + JS.sq size.1.2 + JS.sq size.2)).
Proof.
  intros w C.
  pose proof (fixed_run inputs) as F. fold w in F.
  destruct (sameEnvironment_run cv ct ready res size o inputs) as (Es & _).
  fold w in Es. destruct (F i c C) as (E1 & E2 & E3).
  rewrite E1, E2, E3, Es. now destruct size as [[s0 s1] s2].
Qed.

(** Only the resize observer queues the module's [redraw]. From any
    state with no [redraw] in the queue, and whatever events, option
    changes and animation frames follow, as long as no resize is reported
    the renderer, the instance and its listeners are the ones from before
    and nothing is allocated. *)
Theorem only_a_resize_rebuilds (w : World) (inputs : list Input) :
  Redraw ∉ animationFrames w -> (forall ct', Resized ct' ∉ inputs) ->
  let w' := run w inputs in
  renderer w' = renderer w /\ interactiveCanvas w' = interactiveCanvas w /\
  listeners w' = listeners w /\ nextObject w' = nextObject w.
Proof.
  unfold run. revert w. induction inputs as [|i inputs IH]; intros w N R; simpl.
  - repeat split.
  - destruct (no_resize_step w i N) as (N' & <- & <- & <- & <-).
    { intros ct' ->. apply (R ct'). now left. }
    apply IH; [assumption|]. intros ct' I. apply (R ct'). now right.
Qed.

(** A change of the option flags shows in the next frame: the render that
    the watcher queued draws once, with the flags as they are when the
    frame runs, the view of the current camera after the clamps, and the
    renderer, the instance and the listeners from before. *)
Theorem option_toggle_redraws_with_new_flags (inputs : list Input) (i : nat)
    (c : t) (o' : Options) :
  let w := run (mounted cv ct ready res size o) inputs in
  interactiveCanvas w = Some i -> objects w !! i = Some c ->
  animationFrames w = [] -> o' <> options w ->
  let w' := run w [OptionsChanged o'; AnimationFrame] in
  let c' := (renderImmediately c).1 in
  objects w' !! i = Some c' /\
  (exists cv' r, canvas w = Some cv' /\ renderer w = Some r /\
     gl w' = gl w ++ drawCalls cv' r o' (viewOf c')) /\
  renderer w' = renderer w /\ interactiveCanvas w' = Some i /\
  listeners w' = listeners w.
Proof.
  intros w I C Q N w' c'.
  destruct (oneLiveController_run cv ct ready res size o inputs) as (_ & _ & R).
  destruct (sameEnvironment_run cv ct ready res size o inputs)
    as (_ & _ & _ & cv' & Cv & _).
  fold w in R, Cv. rewrite I in R.
  destruct (proj1 R (mk_is_Some _ _ eq_refl)) as [r Er].
  assert (E : w' = set_animationFrames []
                     (set_gl (gl w ++ drawCalls cv' r o' (viewOf c'))
                        (set_objects (<[i := c']> (objects w)) (set_options o' w)))).
  { subst w'. unfold run. cbn [foldl step].
    rewrite bool_decide_eq_false_2 by assumption.
    unfold optionsWatcher. cbn [interactiveCanvas set_options]. rewrite I.
    unfold animationFrame, redrawInstance, requestAnimationFrame.
    cbn [animationFrames set_animationFrames set_options].
    rewrite Q. cbn [app foldl].
    rewrite (render_current _ i r c cv'); [|assumption|assumption|assumption].
    reflexivity. }
  rewrite E. simpl. split; [apply lookup_insert_eq|].
  split; [exists cv', r; auto|]. auto.
Qed.

End Viewport.

(** ** The user store *)

Section Store.
Variables User Error : Type.

Local Abbreviation Api := (UserStore.Api User Error).
Local Abbreviation store := (UserStore.t User).
Local Abbreviation Fulfilled := (UserStore.Fulfilled (Error := Error)).
Local Abbreviation Rejected := (UserStore.Rejected (Error := Error)).

(** Case analysis on the membership [I] of an operation in a trace that
    is a list of known length. *)
Ltac each_op I :=
  repeat first [ apply elem_of_nil in I; destruct I
               | apply elem_of_cons in I as [I|I] ].

(** What [set] does with a non-empty [id], for every way the two requests
    may settle. *)
Lemma set_truthy (api : Api) (s : store) (a : Ascii.ascii) (rest : string) :
  let id := String a rest in
  let busy := {| UserStore.flag := true; UserStore.user := UserStore.user s |} in
  UserStore.dispatch (UserStore.set (Some id)) api s =
    match UserStore.getUserName api id with
    | UserStore.Rejected e =>
        (busy, [UserStore.AssignFlag true; UserStore.CallGetUserName id], Rejected e)
    | UserStore.Fulfilled r1 =>
        match UserStore.getUser api (UserStore.name r1) with
        | UserStore.Rejected e =>
            (busy,
             [UserStore.AssignFlag true; UserStore.CallGetUserName id;
              UserStore.CallGetUser (UserStore.name r1)],
             Rejected e)
        | UserStore.Fulfilled r2 =>
            ({| UserStore.flag := true;
                UserStore.user := Some (UserStore.user_of r2) |},
             [UserStore.AssignFlag true; UserStore.CallGetUserName id;
              UserStore.CallGetUser (UserStore.name r1);
              UserStore.AssignUser (Some (UserStore.user_of r2))],
             Fulfilled tt)
        end
    end.
Proof.
  intros id busy. unfold UserStore.dispatch, UserStore.set, UserStore.bind,
    UserStore.assignFlag, UserStore.awaitGetUserName, UserStore.awaitGetUser,
    UserStore.assignUser. simpl.
  destruct (UserStore.getUserName api id) as [r1|e]; [|reflexivity].
  destruct (UserStore.getUser api (UserStore.name r1)) as [r2|e]; reflexivity.
Qed.

(** C3, as amended. For every non-empty [id], [set(id)] first sets the
    flag, then awaits [getUserName(id)], then awaits [getUser] on the
    name it got, and then assigns the user it got; the assignment of
    [user] is the last step and happens only when both requests were
    fulfilled. *)
Theorem set_sequences_the_lookups (api : Api) (s : store)
    (a : Ascii.ascii) (rest : string) :
  let id := String a rest in
  let result := UserStore.dispatch (UserStore.set (Some id)) api s in
  (forall n u,
      UserStore.getUserName api id = Fulfilled {| UserStore.name := n |} ->
      UserStore.getUser api n = Fulfilled {| UserStore.user_of := u |} ->
      result =
        ({| UserStore.flag := true; UserStore.user := Some u |},
         [UserStore.AssignFlag true; UserStore.CallGetUserName id;
          UserStore.CallGetUser n; UserStore.AssignUser (Some u)],
         Fulfilled tt)) /\
  (forall u, UserStore.AssignUser u ∈ result.1.2 ->
      exists n u',
        UserStore.getUserName api id = Fulfilled {| UserStore.name := n |} /\
        UserStore.getUser api n = Fulfilled {| UserStore.user_of := u' |} /\
        u = Some u').
Proof.
  intros id result. subst id result. rewrite set_truthy. cbv zeta. split.
  - intros n u E1 E2. rewrite E1. simpl. now rewrite E2.
  - intros u. destruct (UserStore.getUserName api _) as [[n]|e]; simpl.
    + destruct (UserStore.getUser api n) as [[u']|e] eqn:E2; simpl.
      * rewrite !elem_of_cons, elem_of_nil.
        intros [?|[?|[?|[[= ->]|[]]]]]; try discriminate.
        exists n, u'. auto.
      * rewrite !elem_of_cons, elem_of_nil.
        intros [?|[?|[?|[]]]]; discriminate.
    + rewrite !elem_of_cons, elem_of_nil. intros [?|[?|[]]]; discriminate.
Qed.

(** C4. [set()] with no id clears the flag and the user, whatever the
    store held, and calls nothing. *)
Theorem set_without_id_resets (api : Api) (s : store) :
  UserStore.dispatch (UserStore.set None) api s
    = ({| UserStore.flag := false; UserStore.user := None |},
       [UserStore.AssignFlag false; UserStore.AssignUser None],
       Fulfilled tt).
Proof. reflexivity. Qed.

(** C8. For every [id] and every prior state: when a request that
    [set(id)] makes is rejected, be it [getUserName(id)] or, after that was
    fulfilled, [getUser(name)], then [set(id)] is rejected with the same
    reason, [user] is what it was and [flag] is [true]. For a non-empty
    [id] the requests are made: a rejecting [getUserName(id)], or a
    rejecting [getUser(name)] behind a fulfilled [getUserName(id)], is a
    request rejected during the run. *)
Theorem set_propagates_rejections (id : option string) (api : Api) (s : store)
    (e : Error) :
  let result := UserStore.dispatch (UserStore.set id) api s in
  (rejectedDuring api result.1.2 e ->
   result.2 = Rejected e /\
   UserStore.flag result.1.1 = true /\
   UserStore.user result.1.1 = UserStore.user s) /\
  (forall a rest, id = Some (String a rest) ->
     UserStore.getUserName api (String a rest) = Rejected e ->
     rejectedDuring api result.1.2 e) /\
  (forall a rest n, id = Some (String a rest) ->
     UserStore.getUserName api (String a rest) = Fulfilled {| UserStore.name := n |} ->
     UserStore.getUser api n = Rejected e ->
     rejectedDuring api result.1.2 e).
Proof.
  intros result. subst result. unfold rejectedDuring.
  destruct id as [[|a rest]|].
  - split; [|split; intros; discriminate]. simpl.
    intros [(x & I & _)|(x & I & _)]; each_op I; discriminate.
  - rewrite set_truthy. cbv zeta.
    destruct (UserStore.getUserName api (String a rest)) as [[n]|e1] eqn:E1;
      simpl;
      [destruct (UserStore.getUser api n) as [[u]|e2] eqn:E2|]; simpl;
      (split; [|split]);
      try (intros [(x & I & R)|(x & I & R)]; each_op I; simplify_eq;
           first [congruence | repeat split; congruence]);
      try (intros; simplify_eq; congruence).
    + intros ? ? n' ? E1' R. simplify_eq. rewrite E1 in E1'. simplify_eq.
      right. exists n'. rewrite !elem_of_cons. auto.
    + intros ? ? ? R. simplify_eq. left. eexists.
      rewrite !elem_of_cons. eauto.
  - split; [|split; intros; discriminate]. simpl.
    intros [(x & I & _)|(x & I & _)]; each_op I; discriminate.
Qed.

(** C9. [set("")] is [set()]: the empty string is falsy, so the flag and
    the user are cleared and neither endpoint is called. *)
Theorem set_empty_string_resets (api : Api) (s : store) :
  let result := UserStore.dispatch (UserStore.set (Some EmptyString)) api s in
  result = UserStore.dispatch (UserStore.set None) api s /\
  result = ({| UserStore.flag := false; UserStore.user := None |},
            [UserStore.AssignFlag false; UserStore.AssignUser None],
            Fulfilled tt) /\
  (forall x, (UserStore.CallGetUserName x ∉ result.1.2) /\
             (UserStore.CallGetUser x ∉ result.1.2)).
Proof.
  simpl. repeat split; try reflexivity;
    rewrite !elem_of_cons, elem_of_nil; intros [?|[?|[]]]; discriminate.
Qed.

(** [set] requests a profile only behind a fulfilled name request: when
    [getUser(n)] is in the trace, the id is a non-empty string,
    [getUserName(id)] was fulfilled with the name [n], and the trace
    starts with the assignment of the flag, the name request and that
    profile request, in this order. *)
Theorem profile_request_follows_name (id : option string) (api : Api) (s : store)
    (n : string) :
  let result := UserStore.dispatch (UserStore.set id) api s in
  UserStore.CallGetUser n ∈ result.1.2 ->
  exists a rest after,
    id = Some (String a rest) /\
    UserStore.getUserName api (String a rest) = Fulfilled {| UserStore.name := n |} /\
    result.1.2 = UserStore.AssignFlag true :: UserStore.CallGetUserName (String a rest)
                   :: UserStore.CallGetUser n :: after.
Proof.
  destruct id as [[|a rest]|]; cbv zeta.
  - simpl. rewrite !elem_of_cons, elem_of_nil. intros [?|[?|[]]]; discriminate.
  - rewrite set_truthy. cbv zeta.
    destruct (UserStore.getUserName api (String a rest)) as [[n']|e] eqn:E1; simpl.
    + destruct (UserStore.getUser api n') as [[u]|e]; simpl;
        rewrite !elem_of_cons, elem_of_nil.
      * intros [?|[?|[E|[?|[]]]]]; try discriminate. injection E as ->.
        eexists a, rest, _. repeat split. exact E1.
      * intros [?|[?|[E|[]]]]; try discriminate. injection E as ->.
        eexists a, rest, _. repeat split. exact E1.
    + rewrite !elem_of_cons, elem_of_nil. intros [?|[?|[]]]; discriminate.
  - simpl. rewrite !elem_of_cons, elem_of_nil. intros [?|[?|[]]]; discriminate.
Qed.

End Store.

(** ** Overlapping calls of [set] *)

Section Overlap.
Variables User Error : Type.

Local Abbreviation Api := (UserStore.Api User Error).
Local Abbreviation store := (UserStore.t User).
Local Abbreviation Fulfilled := (UserStore.Fulfilled (Error := Error)).

(** A call of [set] that nothing interleaves with (it is invoked, and
    the two promises it awaits settle before anything else happens) ends
    in the state, with the trace and with the settlement of
    [UserStore.set]. *)
Theorem uninterrupted_set_agrees (id : option string) (api : Api) (s : store) :
  let p := EventLoop.turns api (EventLoop.start (Error := Error) s)
             [EventLoop.Invoke id; EventLoop.Settle 0; EventLoop.Settle 0] in
  let result := UserStore.dispatch (UserStore.set id) api s in
  EventLoop.state p = result.1.1 /\
  EventLoop.trace p = result.1.2 /\
  EventLoop.calls p = [EventLoop.Completed result.2].
Proof.
  destruct id as [[|a rest]|]; try (repeat split; reflexivity).
  cbv zeta. rewrite set_truthy. cbv zeta.
  unfold EventLoop.turns, EventLoop.start. simpl.
  destruct (UserStore.getUserName api (String a rest)) as [[n]|e]; simpl.
  - destruct (UserStore.getUser api n) as [[u]|e]; simpl; repeat split; reflexivity.
  - repeat split; reflexivity.
Qed.


(** A sign-out during a lookup is undone in part. When [set()] is called
    while a [set(id)] is still waiting for its answers, and these arrive
    afterwards, both calls are fulfilled and the store ends with the flag
    cleared but the user of [id] set. Had the caller awaited [set(id)]
    before calling [set()], the store would end cleared. *)
Theorem sign_out_during_lookup_is_overwritten (api : Api) (s : store)
    (a : Ascii.ascii) (rest n : string) (u : User) :
  let id := String a rest in
  UserStore.getUserName api id = Fulfilled {| UserStore.name := n |} ->
  UserStore.getUser api n = Fulfilled {| UserStore.user_of := u |} ->
  let overlapping := EventLoop.turns api (EventLoop.start (Error := Error) s)
        [EventLoop.Invoke (Some id); EventLoop.Invoke None;
         EventLoop.Settle 0; EventLoop.Settle 0] in
  let awaited := EventLoop.turns api (EventLoop.start (Error := Error) s)
        [EventLoop.Invoke (Some id); EventLoop.Settle 0; EventLoop.Settle 0;
         EventLoop.Invoke None] in
  EventLoop.state overlapping = {| UserStore.flag := false; UserStore.user := Some u |} /\
  EventLoop.calls overlapping
    = [EventLoop.Completed (Fulfilled tt); EventLoop.Completed (Fulfilled tt)] /\
  EventLoop.state awaited = {| UserStore.flag := false; UserStore.user := None |}.
Proof.
  intros id E1 E2. unfold EventLoop.turns, EventLoop.start. simpl.
  unfold id in *. repeat (first [rewrite E1 | rewrite E2]; simpl). repeat split.
Qed.

(** Of two overlapping calls [set(a)] and [set(b)], the one whose profile
    arrives last determines the user in the store, whichever was called
    last: when the answers for [a] come after those for [b], the store
    ends with the user of [a], although [set(b)] was the later call. *)
Theorem last_response_wins (api : Api) (s : store)
    (a b : Ascii.ascii) (resta restb na nb : string) (ua ub : User) :
  let ida := String a resta in
  let idb := String b restb in
  UserStore.getUserName api ida = Fulfilled {| UserStore.name := na |} ->
  UserStore.getUser api na = Fulfilled {| UserStore.user_of := ua |} ->
  UserStore.getUserName api idb = Fulfilled {| UserStore.name := nb |} ->
  UserStore.getUser api nb = Fulfilled {| UserStore.user_of := ub |} ->
  let both := [EventLoop.Invoke (Some ida); EventLoop.Invoke (Some idb)] in
  let first_last := EventLoop.turns api (EventLoop.start (Error := Error) s)
        (both ++ [EventLoop.Settle 0; EventLoop.Settle 1;
                  EventLoop.Settle 1; EventLoop.Settle 0]) in
  let second_last := EventLoop.turns api (EventLoop.start (Error := Error) s)
        (both ++ [EventLoop.Settle 1; EventLoop.Settle 0;
                  EventLoop.Settle 0; EventLoop.Settle 1]) in
  EventLoop.state first_last = {| UserStore.flag := true; UserStore.user := Some ua |} /\
  EventLoop.state second_last = {| UserStore.flag := true; UserStore.user := Some ub |} /\
  EventLoop.calls first_last
    = [EventLoop.Completed (Fulfilled tt); EventLoop.Completed (Fulfilled tt)] /\
  EventLoop.calls second_last
    = [EventLoop.Completed (Fulfilled tt); EventLoop.Completed (Fulfilled tt)].
Proof.
  intros ida idb E1 E2 E3 E4. unfold EventLoop.turns, EventLoop.start. simpl.
  unfold ida, idb in *.
  repeat (first [rewrite E1 | rewrite E2 | rewrite E3 | rewrite E4]; simpl).
  repeat split.
Qed.

End Overlap.

(** ** The statements on concrete sessions *)

Section Sessions.
Import InteractiveCanvas.
Local Open Scope string_scope.
Local Existing Instance sqrt_hypot.

Ltac floats_differ :=
  let E := fresh in
  intros E; apply (f_equal Prim2SF) in E; vm_compute in E; discriminate.

(** C1 as stated does not hold. In the sample session the user drags the
    camera; then the container is resized and a frame runs. The renderer
    and the instance are not the ones from before: the old instance has
    lost its listeners, and the camera is back at its initial angles. *)
Lemma resize_rebuild_counterexample :
  let before := run sampleWorld sampleDrag in
  let after := run before
    [Resized {| clientWidth := 801; clientHeight := 600 |}; AnimationFrame] in
  (renderer before = Some 0 /\ interactiveCanvas before = Some 1) /\
  (renderer after = Some 2 /\ interactiveCanvas after = Some 3) /\
  renderer after <> renderer before /\
  interactiveCanvas after <> interactiveCanvas before /\
  (xRot <$> objects before !! 1) = Some (JS.PI / 2)%float /\
  (yRot <$> objects before !! 1) = Some 1.5%float /\
  (xRot <$> objects after !! 3) = Some 0.5%float /\
  (yRot <$> objects after !! 3) = Some 0.5%float /\
  listeners before = listenersOf 1 /\
  listeners after = listenersOf 3.
Proof.
  vm_compute. repeat split; discriminate.
Qed.

(** The witness of C2: the first render of the sample session. *)
Lemma render_shows_clamped_camera_witness :
  let w := run (sampleMount (3, 4, 5)%float)
             [Resized {| clientWidth := 800; clientHeight := 600 |}; AnimationFrame] in
  let c := new (3, 4, 5)%float in
  let c' := (renderImmediately c).1 in
  objects w !! 1 = Some c /\
  (runFrameCallback w (RenderImmediately 1)
     = onRender (viewOf c') (set_objects (<[1 := c']> (objects w)) w) /\
   clamped c c' /\
   wrapped (yRot c) (yRot c') /\
   maxViewDist c' = JS.sq (sqrt (JS.sq 3 + JS.sq 4 + JS.sq 5))).
Proof.
  intros w c c'.
  assert (E : objects w !! 1 = Some c) by (vm_compute; reflexivity).
  split; [exact E|].
  exact (render_shows_clamped_camera
           {| width := 300; height := 150; webgl := true |}
           {| clientWidth := 800; clientHeight := 600 |}
           true (Some resourceBundle) (3, 4, 5)%float
           {| grid := false; invisibleBlocks := false |}
           [Resized {| clientWidth := 800; clientHeight := 600 |}; AnimationFrame]
           1 c E).
Defined.

(** C2 as stated does not hold. Mounted on a structure with an empty
    bounding box, the first render shows distance [0], below the lower
    clamp. In the sample session, the closing pinch divides zero by zero
    and the render that follows shows the distance [NaN], which lies in
    no interval. *)
Lemma clamp_counterexample :
  (let w := run (sampleMount (0, 0, 0)%float)
              [Resized {| clientWidth := 800; clientHeight := 600 |};
               AnimationFrame; AnimationFrame] in
   exists c, objects w !! 1 = Some c /\
     last (gl w) = Some (DrawStructure 0 (viewOf c)) /\
     maxViewDist c = 0%float /\ viewDist c = 0%float /\
     ~ JS.between 1 (maxViewDist c) (viewDist c)) /\
  (let w := run sampleWorld closingPinch in
   exists c, objects w !! 1 = Some c /\
     last (gl w) = Some (DrawStructure 0 (viewOf c)) /\
     maxViewDist c = 0x1.9000000000001p+5%float /\ JS.isNaN (viewDist c) /\
     ~ JS.between 1 (maxViewDist c) (viewDist c)).
Proof.
  split; cbv zeta; (eexists; split; [vm_compute; reflexivity|]);
    (split; [vm_compute; reflexivity|]); repeat split;
    intros [B _]; vm_compute in B; discriminate.
Qed.

(** C6 as stated does not hold. Both fingers start on the same point, so
    the starting separation is zero; they then move 5 pixels apart. The
    ratio is infinite and the distance captured at the start divided by
    it is zero, but [viewDist] is what it was. *)
Lemma pinch_from_one_point_counterexample :
  let c := new (3, 4, 5)%float in
  let t1 := touchAt 10 10 in
  let t2 := touchAt 10 10 in
  let u1 := touchAt 0 0 in
  let u2 := touchAt 3 4 in
  let c1 := (handleTouchStart c (twoFingers t1 t2)).1 in
  let c2 := (handleTouchMove c1 (twoFingers u1 u2)).1 in
  let r := (separation u1 u2 / separation t1 t2)%float in
  (separation t1 t2 = 0%float /\ separation u1 u2 = 5%float /\ r = infinity) /\
  (viewDist c / r)%float = 0%float /\
  viewDist c2 = viewDist c /\
  viewDist c2 <> (viewDist c / r)%float.
Proof.
  cbv zeta. repeat split; try (vm_compute; reflexivity). floats_differ.
Qed.

(** The witness of C6: fingers 5 pixels apart at the start, 10 pixels
    apart after the move, so the distance halves. *)
Lemma pinch_scales_viewDist_witness :
  let c := new (3, 4, 5)%float in
  let t1 := touchAt 0 0 in
  let t2 := touchAt 3 4 in
  let c2 := pinchMoves (handleTouchStart c (twoFingers t1 t2)).1
              [(touchAt 1 1, touchAt 4 5)] in
  JS.truthy (separation t1 t2) = true /\
  handleTouchMove c2 (twoFingers (touchAt 0 0) (touchAt 6 8))
    = (set_viewDist (viewDist c / (10 / 5))%float c2,
       [PreventDefault; RequestAnimationFrame]).
Proof.
  assert (T : JS.truthy (separation (touchAt 0 0) (touchAt 3 4)) = true)
    by reflexivity.
  split; [exact T|].
  exact (pinch_scales_viewDist (new (3, 4, 5)%float) (touchAt 0 0) (touchAt 3 4)
           [(touchAt 1 1, touchAt 4 5)] (touchAt 0 0) (touchAt 6 8) T).
Defined.

(** The witness of C10: both fingers start at (10, 10). *)
Lemma coincident_pinch_is_ignored_witness :
  let c := new (3, 4, 5)%float in
  let t := touchAt 10 10 in
  let ms := [(touchAt 0 0, touchAt 3 4); (touchAt 0 0, touchAt 30 40)] in
  let c1 := (handleTouchStart c (twoFingers t t)).1 in
  is_zero (separation t t) = true /\
  (pinchArmed c1 = None /\
   (forall u1 u2, handleTouchMove c1 (twoFingers u1 u2) = (c1, [PreventDefault])) /\
   pinchMoves c1 ms = c1 /\
   viewDist (pinchMoves c1 ms) = viewDist c /\
   (forall c' d v, pinchArmed c' = Some (d, v) -> is_zero d = false)).
Proof.
  assert (Z : is_zero (separation (touchAt 10 10) (touchAt 10 10)) = true)
    by reflexivity.
  split; [exact Z|].
  exact (coincident_pinch_is_ignored (new (3, 4, 5)%float) (touchAt 10 10) (touchAt 10 10)
           [(touchAt 0 0, touchAt 3 4); (touchAt 0 0, touchAt 30 40)] Z).
Defined.

(** The drag of the sample session, through the page. *)
Lemma drag_through_the_page_witness :
  let w := run (sampleMount (3, 4, 5)%float)
             [Resized {| clientWidth := 800; clientHeight := 600 |}; AnimationFrame] in
  let c := new (3, 4, 5)%float in
  let w1 := dispatchEvent CanvasElement (MouseDown (mouseAt 0 10 10)) w in
  let w2 := dispatchEvent OwnerDocument (MouseMove (mouseAt 0 110 510)) w1 in
  interactiveCanvas w = Some 1 /\ objects w !! 1 = Some c /\
  objects w2 !! 1 = Some (dragged (set_dragPos (Some (10, 10)%float) c) 10 10 110 510) /\
  animationFrames w2 = (animationFrames w ++ [RenderImmediately 1])%list.
Proof.
  intros w c w1 w2.
  assert (I : interactiveCanvas w = Some 1) by (vm_compute; reflexivity).
  assert (C : objects w !! 1 = Some c) by (vm_compute; reflexivity).
  split; [exact I|]. split; [exact C|].
  exact (drag_through_the_page
           {| width := 300; height := 150; webgl := true |}
           {| clientWidth := 800; clientHeight := 600 |}
           true (Some resourceBundle) (3, 4, 5)%float
           {| grid := false; invisibleBlocks := false |}
           [Resized {| clientWidth := 800; clientHeight := 600 |}; AnimationFrame]
           1 c 10 10 110 510 0 I C).
Defined.

(** C3 as stated does not hold. The empty string is an id that is
    supplied, and the API would answer for it; yet [set("")] clears the
    flag, calls nothing and stores no user. *)
Lemma set_empty_id_counterexample :
  let result := UserStore.dispatch (UserStore.set (Some EmptyString)) obligingApi signedIn in
  result = ({| UserStore.flag := false; UserStore.user := None |},
            [UserStore.AssignFlag false; UserStore.AssignUser None],
            UserStore.Fulfilled tt) /\
  result <> ({| UserStore.flag := true; UserStore.user := Some 7 |},
             [UserStore.AssignFlag true; UserStore.CallGetUserName EmptyString;
              UserStore.CallGetUser "kkw"; UserStore.AssignUser (Some 7)],
             UserStore.Fulfilled tt).
Proof. split; [reflexivity | discriminate]. Qed.

(** The witness of C3: [set("42")] against the obliging API. *)
Lemma set_sequences_the_lookups_witness :
  UserStore.getUserName obligingApi "42" = UserStore.Fulfilled {| UserStore.name := "kkw" |} /\
  UserStore.getUser obligingApi "kkw" = UserStore.Fulfilled {| UserStore.user_of := 7 |} /\
  UserStore.dispatch (UserStore.set (Some "42")) obligingApi signedIn
    = ({| UserStore.flag := true; UserStore.user := Some 7 |},
       [UserStore.AssignFlag true; UserStore.CallGetUserName "42";
        UserStore.CallGetUser "kkw"; UserStore.AssignUser (Some 7)],
       UserStore.Fulfilled tt).
Proof.
  split; [reflexivity|]. split; [reflexivity|].
  exact (proj1 (set_sequences_the_lookups nat string obligingApi signedIn "4"%char "2")
           "kkw" 7 eq_refl eq_refl).
Defined.

(** The witness of C8: the name request refused, from a signed-in store. *)
Lemma set_propagates_rejections_witness :
  let result := UserStore.dispatch (UserStore.set (Some "42")) refusingApi signedIn in
  rejectedDuring refusingApi result.1.2 "503" /\
  (result.2 = UserStore.Rejected "503" /\
   UserStore.flag result.1.1 = true /\
   UserStore.user result.1.1 = Some 1).
Proof.
  assert (R : rejectedDuring refusingApi
                (UserStore.dispatch (UserStore.set (Some "42")) refusingApi signedIn).1.2
                "503").
  { left. exists "42". split; [|reflexivity]. simpl. rewrite !elem_of_cons. auto. }
  split; [exact R|].
  exact (proj1 (set_propagates_rejections nat string (Some "42") refusingApi signedIn "503") R).
Defined.

(** Three fingers on the freshly built camera. *)
Lemma extra_fingers_change_nothing_witness :
  let ts := [touchAt 0 0; touchAt 3 4; touchAt 6 8] in
  let evt := {| TouchEvent.touches := ts |} in
  let c := new (3, 4, 5)%float in
  3 <= length ts /\
  (handleTouchStart c evt = (c, [PreventDefault]) /\
   handleTouchMove c evt = (c, [PreventDefault]) /\
   handleTouchEnd c evt = (c, [])).
Proof.
  assert (L : 3 <= length [touchAt 0 0; touchAt 3 4; touchAt 6 8]) by (simpl; lia).
  split; [exact L|].
  exact (extra_fingers_change_nothing (new (3, 4, 5)%float)
           [touchAt 0 0; touchAt 3 4; touchAt 6 8] L).
Defined.

(** A wheel event on the canvas of the sample session. *)
Lemma event_runs_its_handler_once_witness :
  let w := run (sampleMount (3, 4, 5)%float) settledMount in
  let c := (renderImmediately (new (3, 4, 5)%float)).1 in
  let e := Wheel {| WheelEvent.deltaY := 100 |} in
  interactiveCanvas w = Some 1 /\ objects w !! 1 = Some c /\
  dispatchEvent CanvasElement e w
    = foldl (perform 1)
        (set_objects (<[1 := (call HandleWheel e c).1]> (objects w)) w)
        (call HandleWheel e c).2.
Proof.
  intros w c e.
  assert (I : interactiveCanvas w = Some 1) by (vm_compute; reflexivity).
  assert (C : objects w !! 1 = Some c) by (vm_compute; reflexivity).
  split; [exact I|]. split; [exact C|].
  exact (proj1 (event_runs_its_handler_once
           {| width := 300; height := 150; webgl := true |}
           {| clientWidth := 800; clientHeight := 600 |}
           true (Some resourceBundle) (3, 4, 5)%float
           {| grid := false; invisibleBlocks := false |}
           settledMount CanvasElement e) 1 c I C).
Defined.


(** A release in the sample session, followed by moves and a right-button press. *)
Lemma release_ends_the_drag_witness :
  let w := run (sampleMount (3, 4, 5)%float) settledMount in
  let c := (renderImmediately (new (3, 4, 5)%float)).1 in
  let es := [(OwnerDocument, MouseMove (mouseAt 0 110 510));
             (CanvasElement, MouseDown (mouseAt 2 110 510));
             (CanvasElement, MouseMove (mouseAt 0 10 10))] in
  let w1 := dispatchEvent CanvasElement (MouseUp (mouseAt 0 10 10)) w in
  interactiveCanvas w = Some 1 /\ objects w !! 1 = Some c /\
  forallb idle es = true /\
  (w1 = set_objects (<[1 := set_dragPos None c]> (objects w)) w /\
   dispatchAll es w1 = w1).
Proof.
  intros w c es w1.
  assert (I : interactiveCanvas w = Some 1) by (vm_compute; reflexivity).
  assert (C : objects w !! 1 = Some c) by (vm_compute; reflexivity).
  assert (E : forallb idle es = true) by reflexivity.
  split; [exact I|]. split; [exact C|]. split; [exact E|].
  exact (release_ends_the_drag
           {| width := 300; height := 150; webgl := true |}
           {| clientWidth := 800; clientHeight := 600 |}
           true (Some resourceBundle) (3, 4, 5)%float
           {| grid := false; invisibleBlocks := false |}
           settledMount 1 c CanvasElement (mouseAt 0 10 10) es I C E).
Defined.

(** A wheel turn in the sample session that overshoots the near clamp. *)
Lemma wheel_zoom_is_drawn_clamped_witness :
  let w := run (sampleMount (3, 4, 5)%float) settledMount in
  let c := (renderImmediately (new (3, 4, 5)%float)).1 in
  let e := {| WheelEvent.deltaY := -1000 |} in
  let w' := run w [Dispatched CanvasElement (Wheel e); AnimationFrame] in
  let c' := (renderImmediately (set_viewDist (viewDist c + -1000 / 100)%float c)).1 in
  interactiveCanvas w = Some 1 /\ objects w !! 1 = Some c /\
  animationFrames w = [] /\
  (objects w' !! 1 = Some c' /\
   viewDist c' = JS.min (JS.max (viewDist c + -1000 / 100)%float 1) (maxViewDist c) /\
   (exists cv' r, canvas w = Some cv' /\ renderer w = Some r /\
      gl w' = (gl w ++ drawCalls cv' r (options w) (viewOf c'))%list) /\
   animationFrames w' = []).
Proof.
  intros w c e w' c'.
  assert (I : interactiveCanvas w = Some 1) by (vm_compute; reflexivity).
  assert (C : objects w !! 1 = Some c) by (vm_compute; reflexivity).
  assert (Q : animationFrames w = []) by (vm_compute; reflexivity).
  split; [exact I|]. split; [exact C|]. split; [exact Q|].
  exact (wheel_zoom_is_drawn_clamped
           {| width := 300; height := 150; webgl := true |}
           {| clientWidth := 800; clientHeight := 600 |}
           true (Some resourceBundle) (3, 4, 5)%float
           {| grid := false; invisibleBlocks := false |}
           settledMount 1 c e I C Q).
Defined.

(** A press, a move, a resize and an option change, with no frame between them. *)
Lemma only_frames_draw_witness :
  let w := run (sampleMount (3, 4, 5)%float) settledMount in
  let inputs := [Dispatched CanvasElement (MouseDown (mouseAt 0 10 10));
                 Dispatched OwnerDocument (MouseMove (mouseAt 0 110 510));
                 Resized {| clientWidth := 640; clientHeight := 480 |};
                 OptionsChanged {| grid := true; invisibleBlocks := false |}] in
  let w' := run w inputs in
  (AnimationFrame ∉ inputs) /\
  (gl w' = gl w /\ renderer w' = renderer w /\
   interactiveCanvas w' = interactiveCanvas w /\
   listeners w' = listeners w /\ nextObject w' = nextObject w).
Proof.
  intros w inputs w'.
  assert (N : AnimationFrame ∉ inputs).
  { unfold inputs. rewrite !not_elem_of_cons.
    repeat split; try discriminate. apply not_elem_of_nil. }
  split; [exact N|].
  exact (only_frames_draw w inputs N).
Defined.

(** The drag of the sample session, frames included. *)
Lemma only_a_resize_rebuilds_witness :
  let w := run (sampleMount (3, 4, 5)%float) settledMount in
  let w' := run w sampleDrag in
  (Redraw ∉ animationFrames w) /\ (forall ct', Resized ct' ∉ sampleDrag) /\
  (renderer w' = renderer w /\ interactiveCanvas w' = interactiveCanvas w /\
   listeners w' = listeners w /\ nextObject w' = nextObject w).
Proof.
  intros w w'.
  assert (Q : Redraw ∉ animationFrames w).
  { replace (animationFrames w) with (@nil FrameCallback) by (vm_compute; reflexivity).
    apply not_elem_of_nil. }
  assert (R : forall ct', Resized ct' ∉ sampleDrag).
  { intros ct'. unfold sampleDrag. rewrite !not_elem_of_cons.
    repeat split; try discriminate. apply not_elem_of_nil. }
  split; [exact Q|]. split; [exact R|].
  exact (only_a_resize_rebuilds w sampleDrag Q R).
Defined.

(** The sample session with the resource store not ready. *)
Lemma nothing_is_built_without_resources_witness :
  let cv := {| width := 300; height := 150; webgl := true |} in
  let ct := {| clientWidth := 800; clientHeight := 600 |} in
  let o := {| grid := true; invisibleBlocks := false |} in
  let w := run (mounted cv ct false None (3, 4, 5)%float o) (settledMount ++ sampleDrag) in
  false && bool_decide (is_Some (@None Resources)) && webgl cv = false /\
  (renderer w = None /\ interactiveCanvas w = None /\ listeners w = [] /\
   objects w = ∅ /\ gl w = [] /\
   (forall cb, cb ∈ animationFrames w -> cb = Redraw)).
Proof.
  intros cv ct o w.
  assert (G : false && bool_decide (is_Some (@None Resources)) && webgl cv = false)
    by reflexivity.
  split; [exact G|].
  exact (nothing_is_built_without_resources cv ct false None (3, 4, 5)%float o
           (settledMount ++ sampleDrag) G).
Defined.

(** The sample session, dragged, then resized to 640 by 480. *)
Lemma resize_resets_the_camera_witness :
  let cv := {| width := 300; height := 150; webgl := true |} in
  let ct := {| clientWidth := 800; clientHeight := 600 |} in
  let ct' := {| clientWidth := 640; clientHeight := 480 |} in
  let o := {| grid := false; invisibleBlocks := false |} in
  let w := run (mounted cv ct true (Some resourceBundle) (3, 4, 5)%float o)
             (settledMount ++ sampleDrag) in
  let w3 := run w [Resized ct'; AnimationFrame; AnimationFrame] in
  let c0 := (renderImmediately (new (3, 4, 5)%float)).1 in
  let cv' := {| width := 640; height := 480; webgl := true |} in
  true && bool_decide (is_Some (Some resourceBundle)) && webgl cv = true /\
  exists i r g,
    interactiveCanvas w3 = Some i /\ renderer w3 = Some r /\
    objects w3 !! i = Some c0 /\
    xRot c0 = 0.5%float /\ yRot c0 = 0.5%float /\
    canvas w3 = Some cv' /\
    gl w3 = (g ++ drawCalls cv' r (options w) (viewOf c0))%list /\
    animationFrames w3 = [].
Proof.
  intros cv ct ct' o w w3 c0 cv'.
  assert (G : true && bool_decide (is_Some (Some resourceBundle)) && webgl cv = true)
    by reflexivity.
  split; [exact G|].
  exact (resize_resets_the_camera cv ct true (Some resourceBundle) (3, 4, 5)%float o
           (settledMount ++ sampleDrag) ct' G).
Defined.

(** The grid switched on in the sample session. *)
Lemma option_toggle_redraws_with_new_flags_witness :
  let w := run (sampleMount (3, 4, 5)%float) settledMount in
  let c := (renderImmediately (new (3, 4, 5)%float)).1 in
  let o' := {| grid := true; invisibleBlocks := false |} in
  let w' := run w [OptionsChanged o'; AnimationFrame] in
  let c' := (renderImmediately c).1 in
  interactiveCanvas w = Some 1 /\ objects w !! 1 = Some c /\
  animationFrames w = [] /\ o' <> options w /\
  (objects w' !! 1 = Some c' /\
   (exists cv' r, canvas w = Some cv' /\ renderer w = Some r /\
      gl w' = (gl w ++ drawCalls cv' r o' (viewOf c'))%list) /\
   renderer w' = renderer w /\ interactiveCanvas w' = Some 1 /\
   listeners w' = listeners w).
Proof.
  intros w c o' w' c'.
  assert (I : interactiveCanvas w = Some 1) by (vm_compute; reflexivity).
  assert (C : objects w !! 1 = Some c) by (vm_compute; reflexivity).
  assert (Q : animationFrames w = []) by (vm_compute; reflexivity).
  assert (N : o' <> options w).
  { intros E. apply (f_equal grid) in E. vm_compute in E. discriminate. }
  split; [exact I|]. split; [exact C|]. split; [exact Q|]. split; [exact N|].
  exact (option_toggle_redraws_with_new_flags
           {| width := 300; height := 150; webgl := true |}
           {| clientWidth := 800; clientHeight := 600 |}
           true (Some resourceBundle) (3, 4, 5)%float
           {| grid := false; invisibleBlocks := false |}
           settledMount 1 c o' I C Q N).
Defined.

(** The camera of the sample session after its first render. *)
Lemma camera_orbits_the_centre_witness :
  let w := run (sampleMount (3, 4, 5)%float) settledMount in
  let c := (renderImmediately (new (3, 4, 5)%float)).1 in
  objects w !! 1 = Some c /\
  (size c = (3, 4, 5)%float /\
   center c = (3 / 2, 4 / 2, 5 / 2)%float /\
   maxViewDist c = JS.sq (sqrt (JS.sq 3 + JS.sq 4 + JS.sq 5))).
Proof.
  intros w c.
  assert (C : objects w !! 1 = Some c) by (vm_compute; reflexivity).
  split; [exact C|].
  exact (camera_orbits_the_centre
           {| width := 300; height := 150; webgl := true |}
           {| clientWidth := 800; clientHeight := 600 |}
           true (Some resourceBundle) (3, 4, 5)%float
           {| grid := false; invisibleBlocks := false |}
           settledMount 1 c C).
Defined.

(** [set("42")] against the obliging API. *)
Lemma profile_request_follows_name_witness :
  let result := UserStore.dispatch (UserStore.set (Some "42")) obligingApi signedIn in
  UserStore.CallGetUser "kkw" ∈ result.1.2 /\
  exists a rest after,
    Some "42" = Some (String a rest) /\
    UserStore.getUserName obligingApi (String a rest)
      = UserStore.Fulfilled {| UserStore.name := "kkw" |} /\
    result.1.2 = UserStore.AssignFlag true :: UserStore.CallGetUserName (String a rest)
                   :: UserStore.CallGetUser "kkw" :: after.
Proof.
  intros result.
  assert (I : UserStore.CallGetUser "kkw" ∈ result.1.2).
  { unfold result. simpl. rewrite !elem_of_cons. auto. }
  split; [exact I|].
  exact (profile_request_follows_name nat string (Some "42") obligingApi signedIn "kkw" I).
Defined.

(** A sign-out from a signed-in store while [set("ab")] is waiting. *)
Lemma sign_out_during_lookup_is_overwritten_witness :
  let overlapping := EventLoop.turns directoryApi (EventLoop.start signedIn)
        [EventLoop.Invoke (Some "ab"); EventLoop.Invoke None;
         EventLoop.Settle 0; EventLoop.Settle 0] in
  let awaited := EventLoop.turns directoryApi (EventLoop.start signedIn)
        [EventLoop.Invoke (Some "ab"); EventLoop.Settle 0; EventLoop.Settle 0;
         EventLoop.Invoke None] in
  UserStore.getUserName directoryApi "ab" = UserStore.Fulfilled {| UserStore.name := "ab" |} /\
  UserStore.getUser directoryApi "ab" = UserStore.Fulfilled {| UserStore.user_of := 2 |} /\
  (EventLoop.state overlapping = {| UserStore.flag := false; UserStore.user := Some 2 |} /\
   EventLoop.calls overlapping
     = [EventLoop.Completed (UserStore.Fulfilled tt);
        EventLoop.Completed (UserStore.Fulfilled tt)] /\
   EventLoop.state awaited = {| UserStore.flag := false; UserStore.user := None |}).
Proof.
  split; [reflexivity|]. split; [reflexivity|].
  exact (sign_out_during_lookup_is_overwritten nat string directoryApi signedIn
           "a"%char "b" "ab" 2 eq_refl eq_refl).
Defined.

(** [set("a")] and [set("bcd")] overlapping, against the directory. *)
Lemma last_response_wins_witness :
  let both := [EventLoop.Invoke (Some "a"); EventLoop.Invoke (Some "bcd")] in
  let first_last := EventLoop.turns directoryApi (EventLoop.start signedIn)
        (both ++ [EventLoop.Settle 0; EventLoop.Settle 1;
                  EventLoop.Settle 1; EventLoop.Settle 0])%list in
  let second_last := EventLoop.turns directoryApi (EventLoop.start signedIn)
        (both ++ [EventLoop.Settle 1; EventLoop.Settle 0;
                  EventLoop.Settle 0; EventLoop.Settle 1])%list in
  UserStore.getUserName directoryApi "a" = UserStore.Fulfilled {| UserStore.name := "a" |} /\
  UserStore.getUser directoryApi "a" = UserStore.Fulfilled {| UserStore.user_of := 1 |} /\
  UserStore.getUserName directoryApi "bcd" = UserStore.Fulfilled {| UserStore.name := "bcd" |} /\
  UserStore.getUser directoryApi "bcd" = UserStore.Fulfilled {| UserStore.user_of := 3 |} /\
  (EventLoop.state first_last = {| UserStore.flag := true; UserStore.user := Some 1 |} /\
   EventLoop.state second_last = {| UserStore.flag := true; UserStore.user := Some 3 |} /\
   EventLoop.calls first_last
     = [EventLoop.Completed (UserStore.Fulfilled tt);
        EventLoop.Completed (UserStore.Fulfilled tt)] /\
   EventLoop.calls second_last
     = [EventLoop.Completed (UserStore.Fulfilled tt);
        EventLoop.Completed (UserStore.Fulfilled tt)]).
Proof.
  split; [reflexivity|]. split; [reflexivity|]. split; [reflexivity|]. split; [reflexivity|].
  exact (last_response_wins nat string directoryApi signedIn
           "a"%char "b"%char "" "cd" "a" "bcd" 1 3 eq_refl eq_refl eq_refl eq_refl).
Defined.

End Sessions.
